(** * kustomize-diff: the tree patch engine and the provenance log of kdiff.go

    A shallow embedding of the patch engine of [kdiff.go] (path addressing,
    the add / replace / remove dialect, the strategic merge), of the loop of
    [main] that applies the collected patches and appends to [fieldSources],
    of the grouping of the log for the report, and of the two loops of
    [processKustomization] that collect patches. *)

From Stdlib Require Import Ascii.
From stdpp Require Import gmap strings list fin_maps.

#[local] Set Warnings "-register-all".
#[local] Open Scope Z_scope.

(** ** Documents

    [yaml.Unmarshal] into [interface{}] yields [nil], [bool], [float64],
    [string], [map[string]interface{}] and [[]interface{}].  Numbers are
    leaves that the engine only moves around and compares; they are kept as
    integers here.

    A map is a reference: a write through any holder is seen by all of them,
    so a function that mutates a map returns the map as its holder finds it
    afterwards.

    A slice is a header (pointer, length, capacity) copied on every
    assignment, over a backing array that is shared.  [VList elems spare] is
    the slice as one holder sees it: the elements up to its length, and the
    capacity left behind them ([cap - len]).  The cells past the length are
    never read by this program, so their contents are not kept. *)
Inductive node : Type :=
| VNil
| VBool (b : bool)
| VNum (n : Z)
| VStr (s : string)
| VMap (m : gmap string node)
| VList (elems : list node) (spare : nat).

(** What the holder of a slice [l] (with [spare] free cells) sees after
    [append(l[:i], xs...)] was evaluated and its result bound to another
    variable: when the capacity suffices, [append] writes [xs] into the shared
    backing array from position [i] on, else it allocates a fresh array and
    leaves the old one alone; the holder's own length does not change in
    either case. *)
Definition viewAfterAppend (l : list node) (spare i : nat) (xs : list node)
  : list node :=
  if decide (i + length xs ≤ length l + spare)%nat
  then take (length l) (take i l ++ xs ++ drop (i + length xs) l)
  else l.

(** ** strconv.Atoi

    An optional sign, then one or more decimal digits; a value outside the
    64-bit [int] is an error as well. *)
Definition digit (c : ascii) : option Z :=
  let n := Z.of_nat (nat_of_ascii c) in
  if bool_decide (48 ≤ n ≤ 57) then Some (n - 48) else None.

Fixpoint digits (s : string) (acc : Z) : option Z :=
  match s with
  | EmptyString => Some acc
  | String c s' =>
      match digit c with
      | Some d => digits s' (acc * 10 + d)
      | None => None
      end
  end.

Definition minInt : Z := - 2 ^ 63.
Definition maxInt : Z := 2 ^ 63 - 1.

Definition Atoi (s : string) : option Z :=
  let '(neg, body) :=
    match s with
    | String "-"%char r => (true, r)
    | String "+"%char r => (false, r)
    | _ => (false, s)
    end in
  match body with
  | EmptyString => None
  | _ =>
      match digits body 0 with
      | Some n =>
          let v := if neg : bool then - n else n in
          if bool_decide (minInt ≤ v ≤ maxInt) then Some v else None
      | None => None
      end
  end.

(** The guard [idx, err := strconv.Atoi(key); err == nil && idx >= 0 &&
    idx < len(m)], shared by every list case but the last step of
    [applyAdd]; it gives the position to index with. *)
Definition validIndex (m : list node) (key : string) : option nat :=
  match Atoi key with
  | Some idx =>
      if bool_decide (0 ≤ idx ∧ idx < Z.of_nat (length m))
      then Some (Z.to_nat idx) else None
  | None => None
  end.

(** ** parsePath *)

(** [strings.Split(s, "/")]. *)
Fixpoint splitSlash (s : string) : list string :=
  match s with
  | EmptyString => [EmptyString]
  | String c r =>
      if Ascii.eqb c "/"%char then EmptyString :: splitSlash r
      else match splitSlash r with
           | h :: t => String c h :: t
           | [] => [String c EmptyString]
           end
  end.

Definition parsePath (path : string) : list string :=
  match path with
  | String "/"%char r => splitSlash r
  | _ => splitSlash path
  end.

(** ** getValueAtPath *)
Fixpoint getValueAtPath (m : node) (path : list string) : node :=
  match path with
  | [] => m
  | key :: rest =>
      match m with
      | VMap mm =>
          match mm !! key with
          | Some val => getValueAtPath val rest
          | None => VNil
          end
      | VList l _ =>
          match validIndex l key with
          | Some idx =>
              match l !! idx with
              | Some e => getValueAtPath e rest
              | None => VNil
              end
          | None => VNil
          end
      | _ => VNil
      end
  end.

(** ** applyAdd, applyReplace, applyRemove

    Each returns the node [m] as its holder sees it once the call is over.

    A decoded document is a tree: no map and no array is reached along two
    paths.  Add and replace keep it one, since the value of an operation
    belongs to that operation alone.  A remove at a list index leaves the last
    element of the list at two positions of the holder's view; that is one
    object in the program and two equal sub-trees here, which part only if a
    later operation writes inside that element. *)
Fixpoint applyAdd (m : node) (path : list string) (value : node) : node :=
  match path with
  | [] => m
  | [key] =>
      match m with
      | VMap mm => VMap (<[key := value]> mm)
      | VList l spare =>
          match Atoi key with
          | Some idx =>
              if bool_decide (idx = -1) then
                (* m = append(m, value) *)
                VList (viewAfterAppend l spare (length l) [value]) spare
              else if bool_decide (0 ≤ idx ∧ idx ≤ Z.of_nat (length l)) then
                (* m = append(m[:idx], append([]interface{}{value}, m[idx:]...)...) *)
                VList (viewAfterAppend l spare (Z.to_nat idx)
                         (value :: drop (Z.to_nat idx) l)) spare
              else m
          | None => m
          end
      | _ => m
      end
  | key :: rest =>
      match m with
      | VMap mm =>
          let child := default (VMap ∅) (mm !! key) in
          VMap (<[key := applyAdd child rest value]> mm)
      | VList l spare =>
          match validIndex l key with
          | Some idx =>
              match l !! idx with
              | Some e => VList (<[idx := applyAdd e rest value]> l) spare
              | None => m
              end
          | None => m
          end
      | _ => m
      end
  end.

Fixpoint applyReplace (m : node) (path : list string) (value : node) : node :=
  match path with
  | [] => m
  | [key] =>
      match m with
      | VMap mm => VMap (<[key := value]> mm)
      | VList l spare =>
          match validIndex l key with
          | Some idx => VList (<[idx := value]> l) spare
          | None => m
          end
      | _ => m
      end
  | key :: rest =>
      match m with
      | VMap mm =>
          let child := default (VMap ∅) (mm !! key) in
          VMap (<[key := applyReplace child rest value]> mm)
      | VList l spare =>
          match validIndex l key with
          | Some idx =>
              match l !! idx with
              | Some e => VList (<[idx := applyReplace e rest value]> l) spare
              | None => m
              end
          | None => m
          end
      | _ => m
      end
  end.

Fixpoint applyRemove (m : node) (path : list string) : node :=
  match path with
  | [] => m
  | [key] =>
      match m with
      | VMap mm => VMap (delete key mm)
      | VList l spare =>
          match validIndex l key with
          | Some idx =>
              (* m = append(m[:idx], m[idx+1:]...) *)
              VList (viewAfterAppend l spare idx (drop (S idx) l)) spare
          | None => m
          end
      | _ => m
      end
  | key :: rest =>
      match m with
      | VMap mm =>
          match mm !! key with
          | Some child => VMap (<[key := applyRemove child rest]> mm)
          | None => m
          end
      | VList l spare =>
          match validIndex l key with
          | Some idx =>
              match l !! idx with
              | Some e => VList (<[idx := applyRemove e rest]> l) spare
              | None => m
              end
          | None => m
          end
      | _ => m
      end
  end.

(** ** deepCopyValue

    [make([]interface{}, len(v))] leaves no spare capacity. *)
Fixpoint deepCopyValue (v : node) : node :=
  match v with
  | VMap m => VMap (deepCopyValue <$> m)
  | VList l _ => VList (deepCopyValue <$> l) 0
  | _ => v
  end.

(** ** reflect.DeepEqual

    The library function, on the values a document is made of, after its
    documentation: values of different dynamic types are never equal; maps
    are equal when they have the same length and every key of the first maps,
    in the second, to a deeply equal value; slices are equal when they have
    the same length and deeply equal elements (capacity plays no part; no nil
    slice or nil map occurs in a decoded document); leaves are compared with
    [==]. *)
Definition elemsEqual (eq : node → node → bool) : list node → list node → bool :=
  fix elems (lx ly : list node) {struct lx} : bool :=
    match lx, ly with
    | [], [] => true
    | vx :: lx', vy :: ly' => eq vx vy && elems lx' ly'
    | _, _ => false
    end.

Fixpoint DeepEqual (x y : node) {struct x} : bool :=
  match x, y with
  | VNil, VNil => true
  | VBool a, VBool b => bool_decide (a = b)
  | VNum a, VNum b => bool_decide (a = b)
  | VStr a, VStr b => bool_decide (a = b)
  | VMap mx, VMap my =>
      bool_decide (size mx = size my)
      && map_fold (λ k vx acc,
                     acc && match my !! k with
                            | Some vy => DeepEqual vx vy
                            | None => false
                            end) true mx
  | VList lx _, VList ly _ => elemsEqual DeepEqual lx ly
  | _, _ => false
  end.

(** The size of a document, for induction on documents. *)
Fixpoint nodeSize (v : node) : nat :=
  match v with
  | VMap m => S (map_fold (λ _ child acc, nodeSize child + acc)%nat 0%nat m)
  | VList l _ => S (foldr (λ e acc, nodeSize e + acc)%nat 0%nat l)
  | _ => 1%nat
  end.

(** ** Records and API types *)

(** [FieldSource].  [Original] and [New] are the documents as they are when
    the record is appended. *)
Record FieldSource := {
  Resource : string;
  Path : list string;
  Source : string;
  Original : node;
  New : node;
}.

Module types.

(** [types.Selector], as far as [main] reads it. *)
Record Selector := { Kind : string; Name : string }.

(** [types.Patch]; [Inline] is its field [Patch]. *)
Record Patch := { Path : string; Inline : string; Target : Selector }.

End types.

Module resource.

(** [*resource.Resource] as [main] uses it: [GetKind], [GetName], and [Doc],
    the map that [yaml.Unmarshal] makes of [MustYaml()]. *)
Record Resource := {
  GetKind : string;
  GetName : string;
  Doc : gmap string node;
}.

End resource.

(** What the patch loop prints that the claims speak of. *)
Inductive message :=
| WarnNoTarget
| WarnRead (path : string)
| WarnParse.

(** The mutable state the patch loop runs on. *)
Record state := {
  allResources : gmap string resource.Resource;
  fieldSources : list FieldSource;
  stdout : list message;
}.

(** [logFatal] ends the process; everything else carries on. *)
Inductive outcome (A : Type) :=
| Fatal (msg : string)
| Ok (a : A).
Arguments Fatal {A} msg.
Arguments Ok {A} a.

#[global] Instance outcome_bind : MBind outcome := λ A B f x,
  match x with
  | Fatal msg => Fatal msg
  | Ok a => f a
  end.

(** [fmt.Sprintf("%s/%s", kind, name)]. *)
Definition resourceKey (kind name : string) : string :=
  (kind +:+ "/" +:+ name)%string.

(** ** What the program leaves to its runtime and its libraries *)
Section Program.

(** The spare capacity of the array that [append] allocates when the old one
    is too small, from the old capacity and the new length (the runtime's
    [growslice]; the language does not fix it). *)
Variable growslice : nat → nat → nat.

(** The order in which a [range] loop visits a map; the language leaves it
    unspecified. *)
Variable rangeOrder : ∀ A : Type, gmap string A → list (string * A).

(** [fs.ReadFile]. *)
Variable ReadFile : string → option string.

(** [yaml.Unmarshal] into an [interface{}]. *)
Variable yamlUnmarshal : string → option node.

(** [filepath.Join] of two elements. *)
Variable filepathJoin : string → string → string.

(** The three library calls that follow the patch in the loop and are fatal
    when they fail: [yaml.Marshal], [resource.NewFactory(nil).FromBytes] and
    [diff.Diff]. *)
Variable rebuilds : gmap string node → bool.

(** ** mergeMap *)

(** [dst[key] = append(dstVal, srcVal...)]: the header stored back. *)
Definition appended (dstVal : list node) (spare : nat) (srcVal : list node)
  : node :=
  if decide (length srcVal ≤ spare)%nat
  then VList (dstVal ++ srcVal) (spare - length srcVal)
  else VList (dstVal ++ srcVal)
         (growslice (length dstVal + spare) (length dstVal + length srcVal)).

(** One turn of the loop of [mergeMap]: what [dst[key]] holds after it, from
    what it held before ([None]: no such key) and [srcVal].  The loop of the
    recursive call is written out in the map case. *)
Fixpoint mergeValue (dstVal : option node) (srcVal : node) {struct srcVal}
  : node :=
  match srcVal, dstVal with
  | VMap src, Some (VMap dst) =>
      VMap (map_fold (λ key srcVal dst,
                        <[key := mergeValue (dst !! key) srcVal]> dst) dst src)
  | VList src _, Some (VList dst spare) => appended dst spare src
  | _, _ => srcVal
  end.

Definition mergeMap (dst src : gmap string node) : gmap string node :=
  map_fold (λ key srcVal dst, <[key := mergeValue (dst !! key) srcVal]> dst)
    dst src.

(** ** The body of the patch loop of main *)

(** The operation entry: [op.(map[string]interface{})], [opMap["op"].(string)],
    [opMap["path"].(string)], [opMap["value"]]. *)
Definition decodeOp (op : node) : outcome (string * string * node) :=
  match op with
  | VMap opMap =>
      match opMap !! "op"%string with
      | Some (VStr opType) =>
          match opMap !! "path"%string with
          | Some (VStr path) =>
              Ok (opType, path, default VNil (opMap !! "value"%string))
          | _ => Fatal "Missing or invalid path"
          end
      | _ => Fatal "Missing or invalid operation type"
      end
  | _ => Fatal "Invalid patch operation format"
  end.

(** One operation of a JSON patch: the resource map and the log after it. *)
Definition applyOperation (resource source : string) (op : node)
    (acc : node * list FieldSource) : outcome (node * list FieldSource) :=
  let '(resourceMap, log) := acc in
  '(opType, path, value) ← decodeOp op;
  let pathKeys := parsePath path in
  let originalValue := getValueAtPath resourceMap pathKeys in
  let record new :=
    {| Resource := resource; Path := pathKeys; Source := source;
       Original := originalValue; New := new |} in
  if String.eqb opType "add" then
    Ok (applyAdd resourceMap pathKeys value, log ++ [record value])
  else if String.eqb opType "replace" then
    Ok (applyReplace resourceMap pathKeys value, log ++ [record value])
  else if String.eqb opType "remove" then
    Ok (applyRemove resourceMap pathKeys, log ++ [record VNil])
  else Ok (resourceMap, log).

Fixpoint applyOperations (resource source : string) (ops : list node)
    (acc : node * list FieldSource) : outcome (node * list FieldSource) :=
  match ops with
  | [] => Ok acc
  | op :: ops' =>
      acc' ← applyOperation resource source op acc;
      applyOperations resource source ops' acc'
  end.

(** The records of the strategic merge: the loop over [resourceMap], then the
    loop over [originalState]. *)
Definition changedKey (resource source : string)
    (originalState : gmap string node) (entry : string * node)
  : option FieldSource :=
  let '(k, newVal) := entry in
  let oldVal := default VNil (originalState !! k) in
  if bool_decide (originalState !! k = None) || negb (DeepEqual oldVal newVal)
  then Some {| Resource := resource; Path := [k]; Source := source;
               Original := oldVal; New := newVal |}
  else None.

Definition removedKey (resource source : string)
    (resourceMap : gmap string node) (entry : string * node)
  : option FieldSource :=
  let '(k, oldVal) := entry in
  if bool_decide (resourceMap !! k = None)
  then Some {| Resource := resource; Path := [k]; Source := source;
               Original := oldVal; New := VNil |}
  else None.

Definition mergeRecords (resource source : string)
    (originalState resourceMap : gmap string node) : list FieldSource :=
  omap (changedKey resource source originalState) (rangeOrder _ resourceMap)
  ++ omap (removedKey resource source resourceMap) (rangeOrder _ originalState).

(** The [switch patchContent.(type)] of the loop: the resource map and the
    log after it. *)
Definition applyPatchContent (resource source : string) (patchContent : node)
    (resourceMap : gmap string node) (log : list FieldSource)
  : outcome (gmap string node * list FieldSource) :=
  match patchContent with
  | VList ops _ =>
      '(after, log') ←
        applyOperations resource source ops (VMap resourceMap, log);
      Ok (match after with VMap m => m | _ => resourceMap end, log')
  | VMap patch =>
      let originalState := deepCopyValue <$> resourceMap in
      let merged := mergeMap resourceMap patch in
      Ok (merged, log ++ mergeRecords resource source originalState merged)
  | _ => Ok (resourceMap, log)
  end.

(** "Find target resource". *)
Definition findTarget (resources : gmap string resource.Resource)
    (target : types.Selector) : option resource.Resource :=
  if String.eqb (types.Name target) EmptyString then
    snd <$> List.find (λ entry : string * resource.Resource,
                         String.prefix (types.Kind target +:+ "/") (fst entry))
              (rangeOrder _ resources)
  else resources !! resourceKey (types.Kind target) (types.Name target).

Definition warn (msg : message) (st : state) : state :=
  {| allResources := allResources st; fieldSources := fieldSources st;
     stdout := stdout st ++ [msg] |}.

(** One turn of the loop "Process all collected patches". *)
Definition processPatch (patch : types.Patch) (st : state) : outcome state :=
  match findTarget (allResources st) (types.Target patch) with
  | None => Ok (warn WarnNoTarget st)
  | Some targetRes =>
      let patchData :=
        if String.eqb (types.Path patch) EmptyString then Some (types.Inline patch)
        else ReadFile (types.Path patch) in
      match patchData with
      | None => Ok (warn (WarnRead (types.Path patch)) st)
      | Some patchData =>
          match yamlUnmarshal patchData with
          | None => Ok (warn WarnParse st)
          | Some patchContent =>
              '(resourceMap, log) ←
                applyPatchContent
                  (resourceKey (resource.GetKind targetRes)
                     (resource.GetName targetRes))
                  (types.Path patch) patchContent (resource.Doc targetRes)
                  (fieldSources st);
              if rebuilds resourceMap
              then Ok {| allResources := allResources st;
                         fieldSources := log; stdout := stdout st |}
              else Fatal "Failed to rebuild the patched resource"
          end
      end
  end.

Fixpoint processPatches (allPatches : list types.Patch) (st : state)
  : outcome state :=
  match allPatches with
  | [] => Ok st
  | patch :: rest => st' ← processPatch patch st; processPatches rest st'
  end.

(** ** The report: "Group changes by resource", then the loop that prints
    the groups. *)
Definition groupChanges (log : list FieldSource)
  : gmap string (list FieldSource) :=
  foldl (λ resourceChanges source,
           <[Resource source :=
               default [] (resourceChanges !! Resource source) ++ [source]]>
             resourceChanges) ∅ log.

Definition report (log : list FieldSource) : list (string * list FieldSource) :=
  rangeOrder _ (groupChanges log).

(** ** processKustomization: the two loops that collect patches *)
Definition scoped (dir : string) (patch : types.Patch) : types.Patch :=
  if String.eqb (types.Path patch) EmptyString then patch
  else {| types.Path := filepathJoin dir (types.Path patch);
          types.Inline := types.Inline patch;
          types.Target := types.Target patch |}.

(** "Add patches from this kustomization". *)
Definition collectPatches (dir : string) (patches allPatches : list types.Patch)
  : list types.Patch :=
  allPatches ++ map (scoped dir) patches.

(** "Add JSON patches from this kustomization": a fresh [types.Patch] is
    built from the [Target] and the [Patch] of the scoped entry. *)
Definition collectPatchesJson6902 (dir : string)
    (patchesJson6902 allPatches : list types.Patch) : list types.Patch :=
  allPatches ++
  map (λ patch,
         let patch := scoped dir patch in
         {| types.Path := EmptyString; types.Inline := types.Inline patch;
            types.Target := types.Target patch |}) patchesJson6902.

End Program.

(** ** The notions the specification uses *)

(** "The node at [path]": each segment is a key present in a map, or a base-10
    index within [0, length) of a list. *)
Inductive nodeAt : node → list string → node → Prop :=
| nodeAt_here m : nodeAt m [] m
| nodeAt_key mm key val rest v :
    mm !! key = Some val →
    nodeAt val rest v →
    nodeAt (VMap mm) (key :: rest) v
| nodeAt_index l spare key idx e rest v :
    Atoi key = Some idx →
    0 ≤ idx < Z.of_nat (length l) →
    l !! Z.to_nat idx = Some e →
    nodeAt e rest v →
    nodeAt (VList l spare) (key :: rest) v.

Definition isScalar (m : node) : Prop :=
  match m with
  | VMap _ | VList _ _ => False
  | _ => True
  end.

(** "The final segment of [path] addresses a map key": the segments before it
    lead through maps (a key that is absent stands for the empty map that add
    and replace create there) and through in-range list indices, to a map. *)
Fixpoint addressesMapKey (m : node) (path : list string) : bool :=
  match path with
  | [] => false
  | [key] => match m with VMap _ => true | _ => false end
  | key :: rest =>
      match m with
      | VMap mm => addressesMapKey (default (VMap ∅) (mm !! key)) rest
      | VList l _ =>
          match validIndex l key with
          | Some idx =>
              match l !! idx with
              | Some e => addressesMapKey e rest
              | None => false
              end
          | None => false
          end
      | _ => false
      end
  end.

(** "The final segment of [path] addresses an in-range list index": the
    segments before it lead through present map keys and in-range list
    indices to a list, and the last one is an index within its length. *)
Fixpoint addressesListIndex (m : node) (path : list string) : bool :=
  match path with
  | [] => false
  | [key] =>
      match m with
      | VList l _ => bool_decide (is_Some (validIndex l key))
      | _ => false
      end
  | key :: rest =>
      match m with
      | VMap mm =>
          match mm !! key with
          | Some child => addressesListIndex child rest
          | None => false
          end
      | VList l _ =>
          match validIndex l key with
          | Some idx =>
              match l !! idx with
              | Some e => addressesListIndex e rest
              | None => false
              end
          | None => false
          end
      | _ => false
      end
  end.

(** The step that the three operations share at an inner segment [key]: go
    on, with [f], in the child that [key] selects in [m]; [auto] says whether
    a key missing from a map is first bound to an empty map. *)
Definition descend (key : string) (f : node → node) (auto : bool) (m : node)
  : node :=
  match m with
  | VMap mm =>
      match mm !! key with
      | Some child => VMap (<[key := f child]> mm)
      | None => if auto then VMap (<[key := f (VMap ∅)]> mm) else m
      end
  | VList l spare =>
      match validIndex l key with
      | Some idx =>
          match l !! idx with
          | Some e => VList (<[idx := f e]> l) spare
          | None => m
          end
      | None => m
      end
  | _ => m
  end.

(** The post-state an operation intends at its path: the value for add and
    replace, absent for remove. *)
Definition intended (opType : string) (value : node) : node :=
  if String.eqb opType "remove" then VNil else value.

(** The operations whose post-state the engine is held to: add and remove at
    a map key, replace at a map key or at an in-range list index. *)
Definition covered (m : node) (opType : string) (pathKeys : list string) : bool :=
  if String.eqb opType "add" then addressesMapKey m pathKeys
  else if String.eqb opType "replace" then
    addressesMapKey m pathKeys || addressesListIndex m pathKeys
  else if String.eqb opType "remove" then addressesMapKey m pathKeys
  else false.

(** Every operation of the list is well-formed and covered on the tree it is
    applied to. *)
Fixpoint allCovered (resource source : string) (ops : list node)
    (acc : node * list FieldSource) : bool :=
  match ops with
  | [] => true
  | op :: ops' =>
      match decodeOp op, applyOperation resource source op acc with
      | Ok (opType, path, _), Ok acc' =>
          covered acc.1 opType (parsePath path)
          && allCovered resource source ops' acc'
      | _, _ => false
      end
  end.

(** The resource keys of a log, each once, in the order of first appearance. *)
Fixpoint firstSeen (seen : list string) (log : list FieldSource) : list string :=
  match log with
  | [] => []
  | source :: log' =>
      if bool_decide (Resource source ∈ seen) then firstSeen seen log'
      else Resource source :: firstSeen (Resource source :: seen) log'
  end.

(** A patch target selects a key of the resource index: the exact
    "kind/name", or the prefix "kind/" when the name is empty. *)
Definition matchesTarget (target : types.Selector) (key : string) : bool :=
  if String.eqb (types.Name target) EmptyString
  then String.prefix (types.Kind target +:+ "/") key
  else bool_decide (key = resourceKey (types.Kind target) (types.Name target)).

(** The top-level key [k] differs between two maps: it is in one of them
    only, or its two values are not deeply equal. *)
Definition differs (pre post : gmap string node) (k : string) : bool :=
  match pre !! k, post !! k with
  | None, None => false
  | Some a, Some b => negb (DeepEqual a b)
  | _, _ => true
  end.

(** The iteration order of the maps, where a witness needs one: the order in
    which the map lists its entries. *)
Definition listedOrder (A : Type) (m : gmap string A) : list (string * A) :=
  map_to_list m.

(** ** Sample documents *)

Definition deployment : node :=
  VMap {[ "spec"%string := VMap {[ "replicas"%string := VNum 1 ]} ]}.

Definition replaceReplicas : node :=
  VMap {[ "op"%string := VStr "replace";
          "path"%string := VStr "/spec/replicas";
          "value"%string := VNum 3 ]}.

Definition itemsDoc (items : list node) (spare : nat) : node :=
  VMap {[ "items"%string := VList items spare ]}.

Definition removeFirstItem : node :=
  VMap {[ "op"%string := VStr "remove"; "path"%string := VStr "/items/0" ]}.

Definition appendItem : node :=
  VMap {[ "op"%string := VStr "add"; "path"%string := VStr "/items/-1";
          "value"%string := VStr "b" ]}.

Definition testReplicas : node :=
  VMap {[ "op"%string := VStr "test"; "path"%string := VStr "/spec/replicas";
          "value"%string := VNum 1 ]}.

Definition container (image : string) : node :=
  VMap {[ "name"%string := VStr "test"; "image"%string := VStr image ]}.

Definition deploymentSpec (replicas : Z) (image : string) : node :=
  VMap {[ "replicas"%string := VNum replicas;
          "template"%string :=
            VMap {[ "spec"%string :=
                      VMap {[ "containers"%string :=
                                VList [container image] 0 ]} ]} ]}.

Definition deploymentDoc (replicas : Z) (image : string) : gmap string node :=
  {[ "kind"%string := VStr "Deployment";
     "metadata"%string := VMap {[ "name"%string := VStr "test" ]};
     "spec"%string := deploymentSpec replicas image ]}.

Definition changeOf (resource : string) : FieldSource :=
  {| Resource := resource; Path := ["spec"%string]; Source := EmptyString;
     Original := VNum 1; New := VNum 3 |}.

Definition sampleLog : list FieldSource :=
  [changeOf "Deployment/web"; changeOf "Service/web"].

Definition sampleState : state :=
  {| allResources :=
       {[ "Deployment/test"%string :=
            {| resource.GetKind := "Deployment"; resource.GetName := "test";
               resource.Doc := deploymentDoc 1 "test:1.0" |} ]};
     fieldSources := []; stdout := [] |}.

Definition servicePatch : types.Patch :=
  {| types.Path := "patches/service.yaml"; types.Inline := EmptyString;
     types.Target := {| types.Kind := "Service"; types.Name := EmptyString |} |}.

(** A runtime for the witnesses: [append] allocates no more than it needs,
    there are no files, nothing parses, every patched resource rebuilds. *)
Definition exactFit (oldCap newLen : nat) : nat := 0%nat.
Definition noFile (path : string) : option string := None.
Definition noParse (data : string) : option node := None.
Definition alwaysRebuilds (resourceMap : gmap string node) : bool := true.

(** ** setValueAtPath *)
Fixpoint setValueAtPath (m : node) (path : list string) (value : node) : node :=
  match path with
  | [] => m
  | [key] =>
      match m with
      | VMap mm => VMap (<[key := value]> mm)
      | VList l spare =>
          match validIndex l key with
          | Some idx => VList (<[idx := value]> l) spare
          | None => m
          end
      | _ => m
      end
  | key :: rest =>
      match m with
      | VMap mm =>
          let child := default (VMap ∅) (mm !! key) in
          VMap (<[key := setValueAtPath child rest value]> mm)
      | VList l spare =>
          match validIndex l key with
          | Some idx =>
              match l !! idx with
              | Some e => VList (<[idx := setValueAtPath e rest value]> l) spare
              | None => m
              end
          | None => m
          end
      | _ => m
      end
  end.

(** ** More notions for stating what the engine does *)

(** [strings.Join(segs, "/")]. *)
Fixpoint joinSlash (segs : list string) : string :=
  match segs with
  | [] => EmptyString
  | [seg] => seg
  | seg :: rest => (seg +:+ "/" +:+ joinSlash rest)%string
  end.

(** The path without the one leading slash that [parsePath] drops. *)
Definition trimSlash (path : string) : string :=
  match path with
  | String "/"%char r => r
  | _ => path
  end.

Fixpoint hasSlash (s : string) : bool :=
  match s with
  | EmptyString => false
  | String c r => Ascii.eqb c "/"%char || hasSlash r
  end.

(** There is a node at [path]: [nodeAt] as a test. *)
Fixpoint present (m : node) (path : list string) : bool :=
  match path with
  | [] => true
  | key :: rest =>
      match m with
      | VMap mm =>
          match mm !! key with
          | Some child => present child rest
          | None => false
          end
      | VList l _ =>
          match validIndex l key with
          | Some idx =>
              match l !! idx with
              | Some e => present e rest
              | None => false
              end
          | None => false
          end
      | _ => false
      end
  end.

(** [after] has the shape of [before]: a map for a map, a list of the same
    length and capacity for a list, the same leaf for a leaf. *)
Definition sameShape (before after : node) : Prop :=
  match before with
  | VMap _ => ∃ m, after = VMap m
  | VList l spare => ∃ l', after = VList l' spare ∧ length l' = length l
  | _ => after = before
  end.

(** The path leads through maps only, by keys that are there. *)
Fixpoint mapsOnly (m : node) (path : list string) : bool :=
  match path with
  | [] => true
  | key :: rest =>
      match m with
      | VMap mm =>
          match mm !! key with
          | Some child => mapsOnly child rest
          | None => false
          end
      | _ => false
      end
  end.

Definition scalar (m : node) : bool :=
  match m with
  | VMap _ | VList _ _ => false
  | _ => true
  end.

(** No list anywhere in the document. *)
Fixpoint listFree (m : node) : bool :=
  match m with
  | VMap mm => map_fold (λ _ child acc, acc && listFree child) true mm
  | VList _ _ => false
  | _ => true
  end.

(** What an operation entry puts on record, whatever it does to the tree:
    resource, path, source and new value, for add, replace and remove; no
    record for any other entry. *)
Definition announced (resource source : string) (op : node)
  : list (string * list string * string * node) :=
  match decodeOp op with
  | Ok (opType, path, value) =>
      if String.eqb opType "add" || String.eqb opType "replace"
      then [(resource, parsePath path, source, value)]
      else if String.eqb opType "remove"
      then [(resource, parsePath path, source, VNil)]
      else []
  | Fatal _ => []
  end.

Definition announcement (r : FieldSource)
  : string * list string * string * node :=
  (Resource r, Path r, Source r, New r).

(** The patch says nothing about [path]: going down [path] in destination
    and patch together, both are maps as long as the patch has the key, and
    at some segment the patch has no such key. *)
Fixpoint patchSilent (dst src : node) (path : list string) : bool :=
  match path with
  | [] => false
  | key :: rest =>
      match dst, src with
      | VMap dm, VMap sm =>
          match sm !! key with
          | None => true
          | Some srcVal =>
              match dm !! key with
              | Some dstVal => patchSilent dstVal srcVal rest
              | None => false
              end
          end
      | _, _ => false
      end
  end.

(** ** The resolver: processResourceOrKustomization, processKustomization *)

(** [types.Kustomization], as far as the resolver reads it. *)
Record Kustomization := {
  Resources : list string;
  Components : list string;
  Patches : list types.Patch;
  PatchesJson6902 : list types.Patch;
}.

(** [allPatches] and [allResources], the two collections the resolver
    fills. *)
Definition collected : Type :=
  list types.Patch * gmap string resource.Resource.

(** How a walk ends: with a fatal exit, with the collections, or not within
    the depth of recursion that the fuel allows ([None]). *)
Definition resolved : Type := option (outcome collected).

(** [allResources[key] = res] with [key] the "kind/name" of [res]. *)
Definition addResource (allResources : gmap string resource.Resource)
    (res : resource.Resource) : gmap string resource.Resource :=
  <[resourceKey (resource.GetKind res) (resource.GetName res) := res]>
    allResources.

(** A [for] loop over directory entries, left at the first walk that does
    not return. *)
Fixpoint eachEntry (visit : string → collected → resolved)
    (entries : list string) (acc : collected) : resolved :=
  match entries with
  | [] => Some (Ok acc)
  | entry :: rest =>
      match visit entry acc with
      | Some (Ok acc') => eachEntry visit rest acc'
      | stopped => stopped
      end
  end.

Section Resolver.

Variable ReadFile : string → option string.
Variable filepathJoin : string → string → string.

(** [yaml.Unmarshal] into a [types.Kustomization]. *)
Variable parseKustomization : string → option Kustomization.

(** [resource.NewFactory(nil).FromBytes]. *)
Variable FromBytes : string → option resource.Resource.

(** [k.Run(fs, dir)] followed by [Resources()]. *)
Variable Run : string → option (list resource.Resource).

(** [processResourceOrKustomization], over the walk of a kustomization
    directory. *)
Definition processResourceOrKustomizationWith
    (processKustomization : string → collected → resolved)
    (path : string) (acc : collected) : resolved :=
  match ReadFile (filepathJoin path "kustomization.yaml") with
  | Some _ => processKustomization path acc
  | None =>
      match ReadFile path with
      | Some data =>
          match FromBytes data with
          | Some res => Some (Ok (acc.1, addResource acc.2 res))
          | None => Some (Fatal "Failed to load resource %s: %v")
          end
      | None =>
          Some (Fatal "Path %s is neither a kustomization directory nor a resource file: %v")
      end
  end.

Fixpoint processKustomization (fuel : nat) (dir : string) (acc : collected)
  : resolved :=
  match fuel with
  | O => None
  | S fuel =>
      match ReadFile (filepathJoin dir "kustomization.yaml") with
      | None => Some (Fatal "Failed reading kustomization.yaml at %s: %v")
      | Some kustData =>
          match parseKustomization kustData with
          | None => Some (Fatal "Failed parsing kustomization.yaml at %s: %v")
          | Some kust =>
              let allPatches :=
                collectPatchesJson6902 filepathJoin dir (PatchesJson6902 kust)
                  (collectPatches filepathJoin dir (Patches kust) acc.1) in
              let visit entry :=
                processResourceOrKustomizationWith (processKustomization fuel)
                  (filepathJoin dir entry) in
              match eachEntry visit (Resources kust) (allPatches, acc.2) with
              | Some (Ok acc1) =>
                  match eachEntry visit (Components kust) acc1 with
                  | Some (Ok acc2) =>
                      match Run dir with
                      | Some built =>
                          Some (Ok (acc2.1, foldl addResource acc2.2 built))
                      | None => Some (Fatal "Base build failed for %s: %v")
                      end
                  | stopped => stopped
                  end
              | stopped => stopped
              end
          end
      end
  end.



End Resolver.

(** Every resource of the index sits under its own "kind/name". *)
Definition keyedByName (allResources : gmap string resource.Resource) : Prop :=
  ∀ key res,
    allResources !! key = Some res →
    key = resourceKey (resource.GetKind res) (resource.GetName res).

(** The collections have only grown: the patches at their end, the index
    in its keys, and the index is still keyed by name if it was. *)
Definition grown (acc acc' : collected) : Prop :=
  acc.1 `prefix_of` acc'.1
  ∧ dom acc.2 ⊆ dom acc'.2
  ∧ (keyedByName acc.2 → keyedByName acc'.2).

(** ** More sample inputs *)

Definition deploymentResource : resource.Resource :=
  {| resource.GetKind := "Deployment"; resource.GetName := "test";
     resource.Doc := deploymentDoc 1 "test:1.0" |}.

Definition deploymentTarget : types.Selector :=
  {| types.Kind := "Deployment"; types.Name := "test" |}.

Definition inlineOps : types.Patch :=
  {| types.Path := EmptyString; types.Inline := "ops";
     types.Target := deploymentTarget |}.

Definition filePatch : types.Patch :=
  {| types.Path := "patches/patch1.yaml"; types.Inline := EmptyString;
     types.Target := deploymentTarget |}.

(** A parser that knows two bodies: a list of one replace, and a merge
    patch. *)
Definition sampleParse (data : string) : option node :=
  if String.eqb data "ops" then Some (VList [replaceReplicas] 0)
  else if String.eqb data "merge" then Some (VMap (deploymentDoc 3 "test:2.0"))
  else None.

Definition replicasChange : FieldSource :=
  {| Resource := "Deployment/test"; Path := ["spec"; "replicas"]%string;
     Source := EmptyString; Original := VNum 1; New := VNum 3 |}.

Definition sampleStateAfter : state :=
  {| allResources := allResources sampleState;
     fieldSources := [replicasChange]; stdout := [WarnNoTarget] |}.

(** A file system with one kustomization directory, root/base, that holds a
    manifest and a resource file. *)
Definition joinPath (dir entry : string) : string :=
  (dir +:+ "/" +:+ entry)%string.

Definition sampleFiles (path : string) : option string :=
  if String.eqb path "root/base/kustomization.yaml" then Some "base manifest"%string
  else if String.eqb path "root/base/deployment.yaml" then Some "deployment"%string
  else None.

Definition baseManifest : Kustomization :=
  {| Resources := ["deployment.yaml"%string]; Components := [];
     Patches := [filePatch]; PatchesJson6902 := [] |}.


Definition sampleManifests (data : string) : option Kustomization :=
  if String.eqb data "base manifest" then Some baseManifest else None.

Definition sampleFactory (data : string) : option resource.Resource :=
  if String.eqb data "deployment" then Some deploymentResource else None.

Definition sampleBuild (dir : string) : option (list resource.Resource) :=
  if String.eqb dir "root/base" then Some [deploymentResource] else None.

Definition baseCollected : collected :=
  ([{| types.Path := "root/base/patches/patch1.yaml";
       types.Inline := EmptyString; types.Target := deploymentTarget |}],
   {[ "Deployment/test"%string := deploymentResource ]}).


Example ex_atoi : Atoi "-1" = Some (-1) ∧ Atoi "007" = Some 7 ∧ Atoi EmptyString = None
  ∧ Atoi "-" = None ∧ Atoi "1a" = None ∧ Atoi "9223372036854775808" = None.
Proof. vm_compute. repeat split. Qed.

Example ex_parsePath : parsePath "/spec/replicas" = ["spec"; "replicas"]%string
  ∧ parsePath EmptyString = [EmptyString] ∧ parsePath "/a//b/" = ["a"; EmptyString; "b"; EmptyString]%string.
Proof. vm_compute. repeat split. Qed.

Example ex_remove :
  applyRemove (VList [VNum 1; VNum 2; VNum 3] 1) ["0"%string]
  = VList [VNum 2; VNum 3; VNum 3] 1.
Proof. vm_compute. reflexivity. Qed.

Example ex_add :
  applyAdd (VList [VNum 1; VNum 2; VNum 3] 1) ["1"%string] (VNum 9)
  = VList [VNum 1; VNum 9; VNum 2] 1
  /\ applyAdd (VList [VNum 1; VNum 2] 0) ["1"%string] (VNum 9)
  = VList [VNum 1; VNum 2] 0.
Proof. vm_compute. split; reflexivity. Qed.

(** ** Path addressing *)

Lemma validIndex_Some l key i :
  validIndex l key = Some i ↔
  ∃ idx, Atoi key = Some idx ∧ 0 ≤ idx < Z.of_nat (length l) ∧ i = Z.to_nat idx.
Proof.
  unfold validIndex. split.
  - destruct (Atoi key) as [idx|]; [|done].
    case_bool_decide; [|done]. intros [= <-]. exists idx. split_and!; [done|lia|lia|done].
  - intros (idx & -> & Hrange & ->). rewrite bool_decide_true; [done|lia].
Qed.

Lemma validIndex_lt l key i : validIndex l key = Some i → (i < length l)%nat.
Proof. rewrite validIndex_Some. intros (idx & _ & ? & ->). lia. Qed.

Lemma validIndex_is_Some l key i :
  validIndex l key = Some i → is_Some (l !! i).
Proof. intros H%validIndex_lt. by apply lookup_lt_is_Some. Qed.

Lemma validIndex_length l l' key :
  length l = length l' → validIndex l key = validIndex l' key.
Proof. unfold validIndex. by intros ->. Qed.

Lemma validIndex_insert l key i x :
  validIndex (<[i := x]> l) key = validIndex l key.
Proof. apply validIndex_length, length_insert. Qed.

Lemma getValueAtPath_nodeAt m path v :
  nodeAt m path v → getValueAtPath m path = v.
Proof.
  induction 1 as [m|mm key val rest v Hkey _ IH
                 |l spare key idx e rest v Hkey Hrange He _ IH]; simpl.
  - done.
  - by rewrite Hkey.
  - assert (validIndex l key = Some (Z.to_nat idx)) as ->.
    { apply validIndex_Some. by exists idx. }
    by rewrite He.
Qed.

Lemma getValueAtPath_cases path m :
  nodeAt m path (getValueAtPath m path) ∨ getValueAtPath m path = VNil.
Proof.
  revert m. induction path as [|key rest IH]; intros m; simpl.
  { left. constructor. }
  destruct m as [| | | |mm|l spare]; try by right.
  - destruct (mm !! key) as [val|] eqn:Hkey; [|by right].
    destruct (IH val) as [Hat|Hnil]; [left|by right].
    by econstructor.
  - destruct (validIndex l key) as [i|] eqn:Hidx; [|by right].
    destruct (l !! i) as [e|] eqn:He; [|by right].
    apply validIndex_Some in Hidx as (idx & Hkey & Hrange & ->).
    destruct (IH e) as [Hat|Hnil]; [left|by right].
    by econstructor.
Qed.

Lemma getValueAtPath_app m pre rest p :
  nodeAt m pre p → getValueAtPath m (pre ++ rest) = getValueAtPath p rest.
Proof.
  induction 1 as [m|mm key val rest' v Hkey _ IH
                 |l spare key idx e rest' v Hkey Hrange He _ IH]; simpl.
  - done.
  - by rewrite Hkey.
  - assert (validIndex l key = Some (Z.to_nat idx)) as ->.
    { apply validIndex_Some. by exists idx. }
    by rewrite He.
Qed.

(** C6. [getValueAtPath] is a total function into the documents, with no
    error result: it returns the node at the path when there is one, and the
    absent value [VNil] when there is none, in particular when, below a node
    the path does reach, the next segment is a key missing from a map, is an
    index outside [0, length) of a list, does not parse as an integer against
    a list, or meets a scalar. *)
Theorem getValueAtPath_total_absent (m : node) (path : list string) :
  (∀ v, nodeAt m path v → getValueAtPath m path = v)
  ∧ ((¬ ∃ v, nodeAt m path v) → getValueAtPath m path = VNil)
  ∧ (∀ pre key rest mm,
       path = pre ++ key :: rest → nodeAt m pre (VMap mm) →
       mm !! key = None → getValueAtPath m path = VNil)
  ∧ (∀ pre key rest l spare idx,
       path = pre ++ key :: rest → nodeAt m pre (VList l spare) →
       Atoi key = Some idx → ¬ (0 ≤ idx < Z.of_nat (length l)) →
       getValueAtPath m path = VNil)
  ∧ (∀ pre key rest l spare,
       path = pre ++ key :: rest → nodeAt m pre (VList l spare) →
       Atoi key = None → getValueAtPath m path = VNil)
  ∧ (∀ pre key rest p,
       path = pre ++ key :: rest → nodeAt m pre p → isScalar p →
       getValueAtPath m path = VNil).
Proof.
  split_and!.
  - apply getValueAtPath_nodeAt.
  - intros Hnone. destruct (getValueAtPath_cases path m) as [Hat|Hnil]; [|done].
    destruct Hnone. eauto.
  - intros pre key rest mm -> Hat Hkey.
    rewrite (getValueAtPath_app _ _ _ _ Hat). simpl. by rewrite Hkey.
  - intros pre key rest l spare idx -> Hat Hkey Hrange.
    rewrite (getValueAtPath_app _ _ _ _ Hat). simpl.
    unfold validIndex. rewrite Hkey, bool_decide_false; [done|lia].
  - intros pre key rest l spare -> Hat Hkey.
    rewrite (getValueAtPath_app _ _ _ _ Hat). simpl.
    unfold validIndex. by rewrite Hkey.
  - intros pre key rest p -> Hat Hp.
    rewrite (getValueAtPath_app _ _ _ _ Hat). by destruct p.
Qed.

(** ** add, replace, remove followed by get *)

(** The equations of the three operations and of the two path predicates at
    an inner segment. *)
Section InnerSegment.

Context (key key' : string) (rest : list string).

Lemma applyAdd_inner m value :
  applyAdd m (key :: key' :: rest) value
  = descend key (λ child, applyAdd child (key' :: rest) value) true m.
Proof. destruct m as [| | | |mm|l spare]; try done. cbn. by destruct (mm !! key). Qed.

Lemma applyReplace_inner m value :
  applyReplace m (key :: key' :: rest) value
  = descend key (λ child, applyReplace child (key' :: rest) value) true m.
Proof. destruct m as [| | | |mm|l spare]; try done. cbn. by destruct (mm !! key). Qed.

Lemma applyRemove_inner m :
  applyRemove m (key :: key' :: rest)
  = descend key (λ child, applyRemove child (key' :: rest)) false m.
Proof. by destruct m. Qed.

Lemma addressesMapKey_inner m :
  addressesMapKey m (key :: key' :: rest)
  = match m with
    | VMap mm => addressesMapKey (default (VMap ∅) (mm !! key)) (key' :: rest)
    | VList l _ =>
        match validIndex l key with
        | Some idx =>
            match l !! idx with
            | Some e => addressesMapKey e (key' :: rest)
            | None => false
            end
        | None => false
        end
    | _ => false
    end.
Proof. by destruct m. Qed.

Lemma addressesListIndex_inner m :
  addressesListIndex m (key :: key' :: rest)
  = match m with
    | VMap mm =>
        match mm !! key with
        | Some child => addressesListIndex child (key' :: rest)
        | None => false
        end
    | VList l _ =>
        match validIndex l key with
        | Some idx =>
            match l !! idx with
            | Some e => addressesListIndex e (key' :: rest)
            | None => false
            end
        | None => false
        end
    | _ => false
    end.
Proof. by destruct m. Qed.

(** Reading back through the segment that [descend] went through. *)
Lemma getValueAtPath_descend f auto m p :
  getValueAtPath (descend key f auto m) (key :: p)
  = match m with
    | VMap mm =>
        match mm !! key with
        | Some child => getValueAtPath (f child) p
        | None => if auto then getValueAtPath (f (VMap ∅)) p else VNil
        end
    | VList l _ =>
        match validIndex l key with
        | Some idx =>
            match l !! idx with
            | Some e => getValueAtPath (f e) p
            | None => VNil
            end
        | None => VNil
        end
    | _ => VNil
    end.
Proof.
  destruct m as [| | | |mm|l spare]; try done.
  - cbn [descend]. destruct (mm !! key) as [child|] eqn:Hkey.
    + cbn [getValueAtPath]. by rewrite lookup_insert_eq.
    + destruct auto; cbn [getValueAtPath].
      * by rewrite lookup_insert_eq.
      * by rewrite Hkey.
  - cbn [descend]. destruct (validIndex l key) as [i|] eqn:Hidx.
    + destruct (l !! i) as [e|] eqn:He.
      * cbn [getValueAtPath]. rewrite validIndex_insert, Hidx.
        by rewrite list_lookup_insert_eq by eauto using validIndex_lt.
      * cbn [getValueAtPath]. by rewrite Hidx, He.
    + cbn [getValueAtPath]. by rewrite Hidx.
Qed.

End InnerSegment.

Lemma applyAdd_applyReplace path :
  ∀ m value,
    addressesMapKey m path = true →
    applyAdd m path value = applyReplace m path value.
Proof.
  induction path as [|key rest IH]; intros m value Hpath; [done|].
  destruct rest as [|key' rest].
  { by destruct m. }
  rewrite applyAdd_inner, applyReplace_inner.
  rewrite addressesMapKey_inner in Hpath.
  destruct m as [| | | |mm|l spare]; try done; cbn [descend].
  - destruct (mm !! key) as [child|]; by rewrite IH.
  - destruct (validIndex l key) as [i|]; [|done].
    destruct (l !! i) as [e|]; [|done]. by rewrite IH.
Qed.

(** C7. On every tree, for every value and every path whose final segment
    addresses a map key, add and replace give the same tree: both overwrite
    the key without looking at what it held. *)
Theorem add_replace_agree_at_map_key (m : node) (path : list string)
    (value : node) :
  addressesMapKey m path = true →
  applyAdd m path value = applyReplace m path value.
Proof. apply applyAdd_applyReplace. Qed.

Lemma add_replace_agree_at_map_key_witness :
  addressesMapKey deployment ["spec"; "replicas"]%string = true
  ∧ applyAdd deployment ["spec"; "replicas"]%string (VNum 3)
    = applyReplace deployment ["spec"; "replicas"]%string (VNum 3).
Proof.
  split; [reflexivity|].
  exact (add_replace_agree_at_map_key deployment ["spec"; "replicas"]%string
           (VNum 3) eq_refl).
Defined.

Lemma getValueAtPath_applyAdd path :
  ∀ m value,
    addressesMapKey m path = true →
    getValueAtPath (applyAdd m path value) path = value.
Proof.
  induction path as [|key rest IH]; intros m value Hpath; [done|].
  destruct rest as [|key' rest].
  { destruct m; try done. cbn. by rewrite lookup_insert_eq. }
  rewrite applyAdd_inner, getValueAtPath_descend.
  rewrite addressesMapKey_inner in Hpath.
  destruct m as [| | | |mm|l spare]; try done.
  - destruct (mm !! key) as [child|]; by apply IH.
  - destruct (validIndex l key) as [i|]; [|done].
    destruct (l !! i) as [e|]; [|done]. by apply IH.
Qed.

Lemma getValueAtPath_applyReplace path :
  ∀ m value,
    addressesMapKey m path || addressesListIndex m path = true →
    getValueAtPath (applyReplace m path value) path = value.
Proof.
  induction path as [|key rest IH]; intros m value Hpath; [done|].
  destruct rest as [|key' rest].
  { destruct m as [| | | |mm|l spare]; try done.
    - cbn. by rewrite lookup_insert_eq.
    - cbn in Hpath. apply bool_decide_eq_true in Hpath as [i Hidx].
      cbn. rewrite Hidx. cbn. rewrite validIndex_insert, Hidx.
      by rewrite list_lookup_insert_eq by eauto using validIndex_lt. }
  rewrite applyReplace_inner, getValueAtPath_descend.
  rewrite addressesMapKey_inner, addressesListIndex_inner in Hpath.
  destruct m as [| | | |mm|l spare]; try done.
  - destruct (mm !! key) as [child|]; cbn [default] in Hpath; apply IH; [done|].
    rewrite orb_false_r in Hpath. by rewrite Hpath.
  - destruct (validIndex l key) as [i|]; [|done].
    destruct (l !! i) as [e|]; [|done]. by apply IH.
Qed.

Lemma getValueAtPath_applyRemove path :
  ∀ m,
    addressesMapKey m path = true →
    getValueAtPath (applyRemove m path) path = VNil.
Proof.
  induction path as [|key rest IH]; intros m Hpath; [done|].
  destruct rest as [|key' rest].
  { destruct m; try done. cbn. by rewrite lookup_delete_eq. }
  rewrite applyRemove_inner, getValueAtPath_descend.
  rewrite addressesMapKey_inner in Hpath.
  destruct m as [| | | |mm|l spare]; try done.
  - destruct (mm !! key) as [child|]; [by apply IH|done].
  - destruct (validIndex l key) as [i|]; [|done].
    destruct (l !! i) as [e|]; [|done]. by apply IH.
Qed.

Lemma applyOperation_post_state resource source op m log opType path value after :
  decodeOp op = Ok (opType, path, value) →
  covered m opType (parsePath path) = true →
  applyOperation resource source op (m, log) = Ok after →
  getValueAtPath after.1 (parsePath path) = intended opType value.
Proof.
  intros Hop Hcov. unfold applyOperation, covered, intended in *.
  rewrite Hop. cbn.
  destruct (String.eqb opType "add") eqn:Hadd.
  { apply String.eqb_eq in Hadd as ->. intros [= <-]. cbn.
    by apply getValueAtPath_applyAdd. }
  destruct (String.eqb opType "replace") eqn:Hreplace.
  { apply String.eqb_eq in Hreplace as ->. intros [= <-]. cbn.
    by apply getValueAtPath_applyReplace. }
  destruct (String.eqb opType "remove") eqn:Hremove; [|done].
  intros [= <-]. cbn. by apply getValueAtPath_applyRemove.
Qed.

(** C1, amended. Let a list of operations be applied in order, each of them
    well-formed and, on the tree it is applied to, an add or a remove whose
    final segment addresses a map key, or a replace whose final segment
    addresses a map key or an in-range list index.  Then for each operation,
    get at its path on the tree as it stands right after that operation gives
    the intended post-state: the provided value after add and replace, absent
    after remove. *)
Theorem get_after_each_operation (resource source : string) (ops : list node)
    (acc : node * list FieldSource) :
  allCovered resource source ops acc = true →
  ∀ i op, ops !! i = Some op →
    ∃ opType path value after,
      decodeOp op = Ok (opType, path, value)
      ∧ applyOperations resource source (take (S i) ops) acc = Ok after
      ∧ getValueAtPath after.1 (parsePath path) = intended opType value.
Proof.
  revert acc. induction ops as [|op0 ops IH]; intros acc Hall i op Hi; [done|].
  cbn [allCovered] in Hall.
  destruct (decodeOp op0) as [|[[opType path] value]] eqn:Hop; [done|].
  destruct (applyOperation resource source op0 acc) as [|acc'] eqn:Hstep; [done|].
  apply andb_true_iff in Hall as [Hcov Hrest].
  destruct i as [|i].
  - injection Hi as <-. exists opType, path, value, acc'.
    split_and!; [done| |].
    + cbn. rewrite Hstep. by destruct ops.
    + destruct acc as [m log]. by eapply applyOperation_post_state.
  - destruct (IH acc' Hrest i op Hi) as (opType' & path' & value' & after & ? & Hrun & ?).
    exists opType', path', value', after. split_and!; [done| |done].
    change (take (S (S i)) (op0 :: ops)) with (op0 :: take (S i) ops).
    cbn [applyOperations]. by rewrite Hstep.
Qed.

Lemma get_after_each_operation_witness :
  allCovered "Deployment/test" EmptyString [replaceReplicas] (deployment, []) = true
  ∧ ∃ opType path value after,
      decodeOp replaceReplicas = Ok (opType, path, value)
      ∧ applyOperations "Deployment/test" EmptyString (take 1 [replaceReplicas])
          (deployment, []) = Ok after
      ∧ getValueAtPath after.1 (parsePath path) = intended opType value.
Proof.
  assert (allCovered "Deployment/test" EmptyString [replaceReplicas] (deployment, [])
          = true) as Hcov by (vm_compute; reflexivity).
  split; [exact Hcov|].
  exact (get_after_each_operation "Deployment/test" EmptyString [replaceReplicas]
           (deployment, []) Hcov 0%nat replaceReplicas eq_refl).
Defined.

(** C1, as stated, fails: removing the in-range element 0 of a two-element
    list leaves a value, not absence, at index 0. *)
Lemma remove_list_index_still_present :
  addressesListIndex (itemsDoc [VStr "x"; VStr "y"] 0) (parsePath "/items/0")
  = true
  ∧ ∃ after,
      applyOperations "ConfigMap/c" EmptyString [removeFirstItem]
        (itemsDoc [VStr "x"; VStr "y"] 0, []) = Ok after
      ∧ getValueAtPath after.1 (parsePath "/items/0") = VStr "y"
      ∧ getValueAtPath after.1 (parsePath "/items/0") ≠ intended "remove" VNil.
Proof.
  split; [vm_compute; reflexivity|].
  eexists. split; [vm_compute; reflexivity|].
  split; [vm_compute; reflexivity|]. vm_compute. discriminate.
Qed.

(** ** add at the append sentinel *)

Lemma applyAdd_sentinel l spare value :
  applyAdd (VList l spare) ["-1"%string] value = VList l spare
  ∧ getValueAtPath (VList l spare) ["-1"%string] = VNil.
Proof.
  split; [|done]. cbn [applyAdd].
  change (Atoi "-1") with (Some (-1)). cbn. f_equal.
  unfold viewAfterAppend. case_decide; [|done].
  by rewrite firstn_all, take_app_length.
Qed.

(** C2, on the code: an add at ".../-1" on a list of length 1 leaves the
    list at length 1, without the new element, whether or not the backing
    array has room; the record is appended, with an absent original value. *)
Theorem add_at_sentinel_appends_nothing :
  applyOperation "ConfigMap/c" EmptyString appendItem (itemsDoc [VStr "a"] 0, [])
  = Ok (itemsDoc [VStr "a"] 0,
        [{| Resource := "ConfigMap/c"; Path := ["items"; "-1"]%string;
            Source := EmptyString; Original := VNil; New := VStr "b" |}])
  ∧ applyOperation "ConfigMap/c" EmptyString appendItem (itemsDoc [VStr "a"] 3, [])
    = Ok (itemsDoc [VStr "a"] 3,
          [{| Resource := "ConfigMap/c"; Path := ["items"; "-1"]%string;
              Source := EmptyString; Original := VNil; New := VStr "b" |}]).
Proof. split; vm_compute; reflexivity. Qed.

(** ** Induction on documents, and DeepEqual *)

Lemma nodeSize_lookup m key child :
  m !! key = Some child → (nodeSize child < nodeSize (VMap m))%nat.
Proof.
  intros Hkey. cbn [nodeSize].
  rewrite (map_fold_delete_L _ _ key child m); [lia| |done].
  intros. lia.
Qed.

Lemma nodeSize_elem l spare e :
  e ∈ l → (nodeSize e < nodeSize (VList l spare))%nat.
Proof.
  cbn [nodeSize]. induction 1 as [e l|e e' l _ IH]; cbn [foldr]; lia.
Qed.

Lemma node_ind' (P : node → Prop) :
  P VNil →
  (∀ b, P (VBool b)) →
  (∀ n, P (VNum n)) →
  (∀ s, P (VStr s)) →
  (∀ m, map_Forall (λ _ child, P child) m → P (VMap m)) →
  (∀ l spare, Forall P l → P (VList l spare)) →
  ∀ v, P v.
Proof.
  intros Hnil Hbool Hnum Hstr Hmap Hlist v.
  remember (nodeSize v) as n eqn:Hn. revert v Hn.
  induction n as [n IH] using lt_wf_ind. intros v ->.
  destruct v as [| | | |m|l spare]; [done..| |].
  - apply Hmap. intros key child Hkey.
    eapply IH; [|done]. by eapply nodeSize_lookup.
  - apply Hlist, Forall_forall. intros e He.
    eapply IH; [|done]. by eapply nodeSize_elem.
Qed.

Lemma map_fold_andb {A} (g : string → A → bool) (m : gmap string A) :
  map_fold (λ k x acc, acc && g k x) true m = true
  ↔ map_Forall (λ k x, g k x = true) m.
Proof.
  apply (map_fold_weak_ind (λ r m,
    r = true ↔ map_Forall (λ k x, g k x = true) m)).
  { split; [intros _; apply map_Forall_empty|done]. }
  intros i x m' r Hi IH.
  rewrite map_Forall_insert by done. rewrite andb_true_iff. tauto.
Qed.

Lemma DeepEqual_maps mx my :
  DeepEqual (VMap mx) (VMap my) = true
  ↔ size mx = size my
    ∧ map_Forall (λ k vx, ∃ vy, my !! k = Some vy ∧ DeepEqual vx vy = true) mx.
Proof.
  cbn [DeepEqual]. rewrite andb_true_iff, bool_decide_eq_true, map_fold_andb.
  apply and_iff_compat_l. unfold map_Forall.
  split; intros H k vx Hk; specialize (H k vx Hk).
  - destruct (my !! k) as [vy|]; [eauto|done].
  - by destruct H as (vy & -> & ?).
Qed.

Lemma elemsEqual_fmap_l (f : node → node) l :
  Forall (λ e, ∀ y, DeepEqual (f e) y = DeepEqual e y) l →
  ∀ ly, elemsEqual DeepEqual (f <$> l) ly = elemsEqual DeepEqual l ly.
Proof.
  induction 1 as [|e l He _ IH]; intros [|y ly]; cbn; try done.
  by rewrite He, IH.
Qed.

Lemma DeepEqual_deepCopyValue x :
  ∀ y, DeepEqual (deepCopyValue x) y = DeepEqual x y.
Proof.
  induction x as [| | | |m IH|l spare IH] using node_ind'; intros y; try done.
  - destruct y as [| | | |my|]; try done.
    apply eq_true_iff_eq. cbn [deepCopyValue].
    rewrite !DeepEqual_maps, map_size_fmap, map_Forall_fmap.
    apply and_iff_compat_l. unfold map_Forall.
    split; intros H k vx Hk; destruct (H k vx Hk) as (vy & ? & Hvy);
      exists vy; (split; [done|]); [by rewrite <-(IH k vx Hk)|by rewrite (IH k vx Hk)].
  - destruct y as [| | | | |ly spare']; try done.
    cbn [deepCopyValue DeepEqual]. by apply elemsEqual_fmap_l.
Qed.

Lemma elemsEqual_refl l :
  Forall (λ e, DeepEqual e e = true) l → elemsEqual DeepEqual l l = true.
Proof. induction 1 as [|e l He _ IH]; cbn; [done|]. by rewrite He, IH. Qed.

Lemma DeepEqual_refl x : DeepEqual x x = true.
Proof.
  induction x as [| | | |m IH|l spare IH] using node_ind'; cbn [DeepEqual];
    try by rewrite ?bool_decide_eq_true.
  - apply DeepEqual_maps. split; [done|]. intros k vx Hk. eauto.
  - by apply elemsEqual_refl.
Qed.

Lemma DeepEqual_deepCopyValue_same x : DeepEqual (deepCopyValue x) x = true.
Proof. by rewrite DeepEqual_deepCopyValue, DeepEqual_refl. Qed.

Lemma elemsEqual_copies l :
  Forall (λ e, ∀ y, DeepEqual e y = true → deepCopyValue e = deepCopyValue y) l →
  ∀ ly, elemsEqual DeepEqual l ly = true →
        deepCopyValue <$> l = deepCopyValue <$> ly.
Proof.
  induction 1 as [|e l He _ IH]; intros [|y ly]; cbn; try done.
  intros [Hy Hly]%andb_true_iff. by rewrite (He y Hy), (IH ly Hly).
Qed.

(** [DeepEqual] is equality of documents up to the capacities of their
    slices. *)
Lemma DeepEqual_spec x y :
  DeepEqual x y = true ↔ deepCopyValue x = deepCopyValue y.
Proof.
  split.
  - revert y.
    induction x as [|a|a|a|m IH|l spare IH] using node_ind'; intros y Heq.
    + by destruct y.
    + destruct y; try done. cbn in Heq. by apply bool_decide_eq_true in Heq as ->.
    + destruct y; try done. cbn in Heq. by apply bool_decide_eq_true in Heq as ->.
    + destruct y; try done. cbn in Heq. by apply bool_decide_eq_true in Heq as ->.
    + destruct y as [| | | |my|]; try done.
      apply DeepEqual_maps in Heq as [Hsize Hall].
      assert (dom m = dom my) as Hdom.
      { apply set_subseteq_size_eq.
        - intros k [vx Hk]%elem_of_dom. destruct (Hall k vx Hk) as (vy & ? & _).
          apply elem_of_dom. eauto.
        - rewrite !size_dom. lia. }
      cbn [deepCopyValue]. f_equal. apply map_eq. intros k.
      rewrite !lookup_fmap. destruct (m !! k) as [vx|] eqn:Hk.
      * destruct (Hall k vx Hk) as (vy & -> & Hvy). cbn. f_equal. by eapply IH.
      * apply not_elem_of_dom in Hk. rewrite Hdom in Hk.
        apply not_elem_of_dom in Hk. by rewrite Hk.
    + destruct y as [| | | | |ly spare']; try done.
      cbn [deepCopyValue]. f_equal. by apply elemsEqual_copies.
  - intros Heq. rewrite <-DeepEqual_deepCopyValue, Heq.
    apply DeepEqual_deepCopyValue_same.
Qed.

(** ** The strategic merge *)
Section ProgramFacts.

Variable growslice : nat → nat → nat.
Variable rangeOrder : ∀ A : Type, gmap string A → list (string * A).
Variable ReadFile : string → option string.
Variable yamlUnmarshal : string → option node.
Variable filepathJoin : string → string → string.
Variable rebuilds : gmap string node → bool.

(** A [range] loop visits every entry of its map once. *)
Hypothesis rangeOrder_entries :
  ∀ (A : Type) (m : gmap string A), rangeOrder A m ≡ₚ map_to_list m.

#[local] Set Default Proof Using "Type".

Lemma mergeValue_maps dst src :
  mergeValue growslice (Some (VMap dst)) (VMap src)
  = VMap (mergeMap growslice dst src).
Proof. done. Qed.

Lemma mergeMap_lookup dst src key :
  mergeMap growslice dst src !! key
  = match src !! key with
    | Some srcVal => Some (mergeValue growslice (dst !! key) srcVal)
    | None => dst !! key
    end.
Proof.
  unfold mergeMap. revert key.
  apply (map_fold_weak_ind (λ (r m : gmap string node), ∀ key,
    r !! key = match m !! key with
               | Some srcVal => Some (mergeValue growslice (dst !! key) srcVal)
               | None => dst !! key
               end)).
  { intros key. by rewrite lookup_empty. }
  intros i x m r Hi IH key.
  destruct (decide (i = key)) as [->|Hne].
  - rewrite !lookup_insert_eq. by rewrite IH, Hi.
  - rewrite !lookup_insert_ne by done. apply IH.
Qed.

Lemma mergeMap_dom dst src :
  dom (mergeMap growslice dst src) = dom dst ∪ dom src.
Proof.
  apply set_eq. intros key.
  rewrite elem_of_union, !elem_of_dom, mergeMap_lookup.
  destruct (src !! key) as [srcVal|]; split; intros H.
  - right. eauto.
  - eauto.
  - by left.
  - destruct H as [H|[? [=]]]. done.
Qed.

(** C5. The merge of a patch map into a destination map, at every key of the
    patch: two maps are merged recursively; two lists give the destination
    list followed by the patch list; in every other combination the patch
    value takes the place.  The keys of the result are those of the
    destination and of the patch, and a key the patch lacks keeps the
    destination's value. *)
Theorem mergeMap_per_key (dst src : gmap string node) :
  (∀ key d s,
     dst !! key = Some (VMap d) → src !! key = Some (VMap s) →
     mergeMap growslice dst src !! key = Some (VMap (mergeMap growslice d s)))
  ∧ (∀ key d spare s spare',
       dst !! key = Some (VList d spare) → src !! key = Some (VList s spare') →
       ∃ spare'',
         mergeMap growslice dst src !! key = Some (VList (d ++ s) spare''))
  ∧ (∀ key srcVal,
       src !! key = Some srcVal →
       (¬ ∃ d s, dst !! key = Some (VMap d) ∧ srcVal = VMap s) →
       (¬ ∃ d spare s spare',
            dst !! key = Some (VList d spare) ∧ srcVal = VList s spare') →
       mergeMap growslice dst src !! key = Some srcVal)
  ∧ (∀ key, src !! key = None → mergeMap growslice dst src !! key = dst !! key)
  ∧ dom (mergeMap growslice dst src) = dom dst ∪ dom src.
Proof.
  split_and!.
  - intros key d s Hd Hs. by rewrite mergeMap_lookup, Hs, Hd.
  - intros key d spare s spare' Hd Hs. rewrite mergeMap_lookup, Hs, Hd.
    cbn. unfold appended. case_decide; eauto.
  - intros key srcVal Hs Hmaps Hlists. rewrite mergeMap_lookup, Hs. f_equal.
    destruct srcVal as [| | | |s|s spare']; try done.
    + destruct (dst !! key) as [[| | | |d|d spare]|]; try done.
      destruct Hmaps. eauto.
    + destruct (dst !! key) as [[| | | |d|d spare]|]; try done.
      destruct Hlists. eauto 10.
  - intros key Hs. by rewrite mergeMap_lookup, Hs.
  - apply mergeMap_dom.
Qed.

(** ** The records of a strategic merge *)

Lemma count_records_at_key {A} (f : string * A → option FieldSource)
    (m : gmap string A) (k : string) :
  (∀ entry r, f entry = Some r → Path r = [entry.1]) →
  length (filter (λ r, Path r = [k]) (omap f (map_to_list m)))
  = match m !! k with
    | Some x => if f (k, x) is Some _ then 1%nat else 0%nat
    | None => 0%nat
    end.
Proof.
  intros Hpath. induction m as [|i x m Hi IH] using map_ind.
  { by rewrite map_to_list_empty, lookup_empty. }
  rewrite map_to_list_insert by done. cbn [omap list_omap].
  destruct (decide (i = k)) as [->|Hne].
  - rewrite lookup_insert_eq, Hi in *.
    destruct (f (k, x)) as [r|] eqn:Hf; [|done].
    rewrite filter_cons_True by (by apply (Hpath _ _ Hf)).
    cbn. by rewrite IH.
  - rewrite lookup_insert_ne by done.
    destruct (f (i, x)) as [r|] eqn:Hf; [|done].
    rewrite filter_cons_False; [done|].
    rewrite (Hpath _ _ Hf). cbn. congruence.
Qed.

Lemma changedKey_Path resource source originalState entry r :
  changedKey resource source originalState entry = Some r → Path r = [entry.1].
Proof.
  destruct entry as [k newVal]. unfold changedKey.
  case_match; [|done]. by intros [= <-].
Qed.

Lemma removedKey_Path resource source resourceMap entry r :
  removedKey resource source resourceMap entry = Some r → Path r = [entry.1].
Proof.
  destruct entry as [k oldVal]. unfold removedKey.
  case_match; [|done]. by intros [= <-].
Qed.

(** C3. A strategic merge records provenance at the top level only: for
    every top-level key of the map before or after the merge, there is
    exactly one record when its value differs (by [DeepEqual], or by being in
    one of the two maps only) and none when it does not; every record has the
    single top-level key for its path, the copy of the whole sub-tree from
    before the merge (absent when there was none) as original value, and the
    whole sub-tree from after the merge as new value.  Leaves that differ
    inside a merged sub-map add no record. *)
Theorem merge_records_top_level (resource source : string)
    (patch resourceMap : gmap string node) (log : list FieldSource) :
  ∃ records,
    applyPatchContent growslice rangeOrder resource source (VMap patch)
      resourceMap log
    = Ok (mergeMap growslice resourceMap patch, log ++ records)
    ∧ (∀ k,
         length (filter (λ r, Path r = [k]) records)
         = if differs resourceMap (mergeMap growslice resourceMap patch) k
           then 1%nat else 0%nat)
    ∧ (∀ r, r ∈ records →
         ∃ k,
           Path r = [k]
           ∧ differs resourceMap (mergeMap growslice resourceMap patch) k = true
           ∧ Resource r = resource ∧ Source r = source
           ∧ Original r = default VNil (deepCopyValue <$> resourceMap !! k)
           ∧ DeepEqual (Original r) (default VNil (resourceMap !! k)) = true
           ∧ New r
             = default VNil (mergeMap growslice resourceMap patch !! k)).
Proof using rangeOrder_entries.
  set (merged := mergeMap growslice resourceMap patch).
  set (originalState := deepCopyValue <$> resourceMap).
  exists (mergeRecords rangeOrder resource source originalState merged).
  split_and!; [done| |].
  - intros k. unfold mergeRecords.
    rewrite filter_app, length_app, !rangeOrder_entries.
    rewrite !count_records_at_key
      by eauto using changedKey_Path, removedKey_Path.
    unfold differs, changedKey, removedKey, originalState.
    rewrite !lookup_fmap.
    destruct (resourceMap !! k) as [a|], (merged !! k) as [b|]; cbn; try done.
    rewrite DeepEqual_deepCopyValue. by destruct (DeepEqual a b).
  - intros r. unfold mergeRecords.
    rewrite elem_of_app, !list_elem_of_omap.
    intros [([k newVal] & Hin & Hr)|([k oldVal] & Hin & Hr)];
      rewrite rangeOrder_entries in Hin;
      apply elem_of_map_to_list in Hin; exists k.
    + unfold changedKey, originalState in Hr. rewrite lookup_fmap in Hr.
      unfold differs. rewrite Hin.
      destruct (resourceMap !! k) as [a|]; cbn in Hr.
      * rewrite DeepEqual_deepCopyValue in Hr.
        destruct (DeepEqual a newVal) eqn:Heq; [done|].
        injection Hr as <-. cbn. by rewrite DeepEqual_deepCopyValue_same.
      * injection Hr as <-. done.
    + unfold removedKey in Hr. unfold originalState in Hin.
      rewrite lookup_fmap in Hin. unfold differs.
      destruct (resourceMap !! k) as [a|]; [|done].
      injection Hin as <-. case_bool_decide as Hgone; [|done].
      injection Hr as <-. rewrite Hgone. cbn.
      by rewrite DeepEqual_deepCopyValue_same.
Qed.

(** ** The patch loop *)

Lemma find_nowhere {A} (f : A → bool) (l : list A) :
  (∀ x, x ∈ l → f x = false) → List.find f l = None.
Proof.
  induction l as [|x l IH]; intros Hall; [done|]. cbn.
  rewrite (Hall x) by left. apply IH. intros y Hy. apply Hall. by right.
Qed.

Lemma findTarget_no_match resources target :
  (∀ key, key ∈ dom resources → matchesTarget target key = false) →
  findTarget rangeOrder resources target = None.
Proof using rangeOrder_entries.
  unfold findTarget, matchesTarget. intros Hnone.
  destruct (String.eqb (types.Name target) EmptyString) eqn:Hname.
  - rewrite find_nowhere; [done|]. intros [key res] Hin.
    rewrite rangeOrder_entries in Hin. apply elem_of_map_to_list in Hin.
    apply Hnone, elem_of_dom. eauto.
  - destruct (resources !! _) as [res|] eqn:Hkey; [|done].
    specialize (Hnone _ (elem_of_dom_2 _ _ _ Hkey)).
    by rewrite bool_decide_true in Hnone.
Qed.

(** C8. When the target of a patch selects no key of the resource index, the
    turn of the loop ends with the warning only: the run is not fatal, the
    log, the index and so every resource tree are as they were, and the
    remaining patches are processed from that state. *)
Theorem unknown_target_skipped (patch : types.Patch)
    (rest : list types.Patch) (st : state) :
  (∀ key, key ∈ dom (allResources st) →
          matchesTarget (types.Target patch) key = false) →
  processPatch growslice rangeOrder ReadFile yamlUnmarshal rebuilds patch st
  = Ok (warn WarnNoTarget st)
  ∧ processPatches growslice rangeOrder ReadFile yamlUnmarshal rebuilds
      (patch :: rest) st
    = processPatches growslice rangeOrder ReadFile yamlUnmarshal rebuilds
        rest (warn WarnNoTarget st)
  ∧ fieldSources (warn WarnNoTarget st) = fieldSources st
  ∧ allResources (warn WarnNoTarget st) = allResources st
  ∧ stdout (warn WarnNoTarget st) = stdout st ++ [WarnNoTarget].
Proof using rangeOrder_entries.
  intros Hnone%findTarget_no_match.
  assert (processPatch growslice rangeOrder ReadFile yamlUnmarshal rebuilds
            patch st = Ok (warn WarnNoTarget st)) as Hstep.
  { unfold processPatch. by rewrite Hnone. }
  split_and!; try done. cbn [processPatches]. by rewrite Hstep.
Qed.

(** C10. A well-formed operation whose op is none of add, replace and remove
    changes nothing: the resource map and the log come out as they went in,
    with no fatal exit, and the loop goes on with the operations that
    follow; a patch made of such an operation alone leaves the resource map
    and the log as they were. *)
Theorem unknown_op_ignored (resource source : string) (op : node)
    (ops : list node) (acc : node * list FieldSource)
    (opType path : string) (value : node) :
  decodeOp op = Ok (opType, path, value) →
  opType ≠ "add"%string → opType ≠ "replace"%string →
  opType ≠ "remove"%string →
  applyOperation resource source op acc = Ok acc
  ∧ applyOperations resource source (op :: ops) acc
    = applyOperations resource source ops acc
  ∧ ∀ spare resourceMap log,
      applyPatchContent growslice rangeOrder resource source
        (VList [op] spare) resourceMap log
      = Ok (resourceMap, log).
Proof.
  intros Hop Hadd%String.eqb_neq Hreplace%String.eqb_neq Hremove%String.eqb_neq.
  assert (∀ acc, applyOperation resource source op acc = Ok acc) as Hstep.
  { intros [m log]. unfold applyOperation.
    rewrite Hop. cbn. by rewrite Hadd, Hreplace, Hremove. }
  split_and!; [done| |].
  - cbn [applyOperations]. by rewrite Hstep.
  - intros spare resourceMap log. unfold applyPatchContent.
    cbn [applyOperations]. by rewrite Hstep.
Qed.

(** ** The report *)

Lemma groupChanges_lookup log key :
  groupChanges log !! key
  = match filter (λ r, Resource r = key) log with
    | [] => None
    | changes => Some changes
    end.
Proof.
  unfold groupChanges. induction log as [|source log IH] using rev_ind.
  { cbn. by rewrite lookup_empty. }
  rewrite foldl_snoc, filter_app.
  destruct (decide (Resource source = key)) as [<-|Hne].
  - rewrite lookup_insert_eq, IH, filter_cons_True by done.
    by destruct (filter _ log).
  - rewrite lookup_insert_ne, IH, filter_cons_False by done.
    by rewrite app_nil_r.
Qed.

Lemma groupChanges_dom log key :
  key ∈ dom (groupChanges log) ↔ ∃ r, r ∈ log ∧ Resource r = key.
Proof.
  rewrite elem_of_dom, groupChanges_lookup. split.
  - destruct (filter _ log) as [|r changes] eqn:Hfilter; [by intros [? [=]]|].
    intros _. exists r.
    assert (r ∈ filter (λ r, Resource r = key) log) as Hr
      by (rewrite Hfilter; left).
    apply list_elem_of_filter in Hr as [? ?]. done.
  - intros (r & Hin & Hkey).
    assert (r ∈ filter (λ r, Resource r = key) log) as Hr
      by by apply list_elem_of_filter.
    destruct (filter _ log); [by apply elem_of_nil in Hr|eauto].
Qed.

Lemma firstSeen_elem log :
  ∀ seen key,
    key ∈ firstSeen seen log ↔ (key ∉ seen) ∧ ∃ r, r ∈ log ∧ Resource r = key.
Proof.
  induction log as [|source log IH]; intros seen key; cbn [firstSeen].
  { rewrite elem_of_nil. split; [done|]. intros [_ (r & Hin & _)].
    by apply elem_of_nil in Hin. }
  case_bool_decide as Hseen.
  - rewrite IH. split; intros [Hkey (r & Hin & Hr)]; split; try done.
    + exists r. split; [by right|done].
    + apply elem_of_cons in Hin as [->|Hin]; [congruence|eauto].
  - rewrite elem_of_cons, IH. split.
    + intros [->|[Hkey (r & Hin & Hr)]].
      * split; [done|]. exists source. split; [left|done].
      * apply not_elem_of_cons in Hkey as [? ?]. split; [done|].
        exists r. split; [by right|done].
    + intros [Hkey (r & Hin & Hr)].
      destruct (decide (key = Resource source)) as [->|Hne]; [by left|right].
      split; [by apply not_elem_of_cons|].
      apply elem_of_cons in Hin as [->|Hin]; [done|eauto].
Qed.

Lemma firstSeen_NoDup log : ∀ seen, NoDup (firstSeen seen log).
Proof.
  induction log as [|source log IH]; intros seen; cbn [firstSeen].
  { constructor. }
  case_bool_decide; [done|]. constructor; [|done].
  rewrite firstSeen_elem. intros [Hnot _]. apply Hnot. left.
Qed.

(** C9, amended. The report groups the log by resource key: each key of the
    log heads exactly one group, which holds the records of that key in the
    order of the log; the groups are those of the first-seen keys, in the
    order in which the loop over the map happens to visit them. *)
Theorem report_groups (log : list FieldSource) :
  (report rangeOrder log).*1 ≡ₚ firstSeen [] log
  ∧ NoDup (report rangeOrder log).*1
  ∧ ∀ key changes,
      (key, changes) ∈ report rangeOrder log →
      changes = filter (λ r, Resource r = key) log ∧ changes ≠ [].
Proof using rangeOrder_entries.
  unfold report.
  assert (NoDup (rangeOrder _ (groupChanges log)).*1) as Hnodup.
  { rewrite rangeOrder_entries. apply NoDup_fst_map_to_list. }
  split_and!; [|done|].
  - apply NoDup_Permutation; [done|apply firstSeen_NoDup|].
    intros key. rewrite rangeOrder_entries, firstSeen_elem.
    rewrite <-groupChanges_dom, dom_alt, elem_of_list_to_set.
    split; [|by intros [_ ?]]. intros ?. split; [apply not_elem_of_nil|done].
  - intros key changes Hin. rewrite rangeOrder_entries in Hin.
    apply elem_of_map_to_list in Hin. rewrite groupChanges_lookup in Hin.
    destruct (filter _ log); [done|]. by injection Hin as <-.
Qed.

(** ** Collecting the patches *)

Lemma collectPatches_keeps_path dir target allPatches :
  collectPatches filepathJoin dir
    [{| types.Path := "patch.yaml"; types.Inline := EmptyString;
        types.Target := target |}] allPatches
  = allPatches ++
    [{| types.Path := filepathJoin dir "patch.yaml"; types.Inline := EmptyString;
        types.Target := target |}].
Proof. done. Qed.

(** C4, on the code: an entry of patchesJson6902 that names a file comes out
    of the resolver with neither the path nor the body of the file; nothing
    is read.  The entry of patches beside it keeps its scoped path
    ([collectPatches_keeps_path]). *)
Theorem json6902_file_entry_dropped (dir : string) (target : types.Selector)
    (allPatches : list types.Patch) :
  collectPatchesJson6902 filepathJoin dir
    [{| types.Path := "patch.json"; types.Inline := EmptyString;
        types.Target := target |}] allPatches
  = allPatches ++
    [{| types.Path := EmptyString; types.Inline := EmptyString; types.Target := target |}].
Proof. done. Qed.

End ProgramFacts.

(** ** The theorems at sample inputs *)

Lemma listedOrder_entries (A : Type) (m : gmap string A) :
  listedOrder A m ≡ₚ map_to_list m.
Proof. reflexivity. Defined.

Lemma merge_records_top_level_witness :
  (∀ (A : Type) (m : gmap string A), listedOrder A m ≡ₚ map_to_list m)
  ∧ ∃ records,
      applyPatchContent exactFit listedOrder "Deployment/test" "patch1.yaml"
        (VMap (deploymentDoc 3 "test:2.0")) (deploymentDoc 1 "test:1.0") []
      = Ok (mergeMap exactFit (deploymentDoc 1 "test:1.0")
              (deploymentDoc 3 "test:2.0"), [] ++ records)
      ∧ (∀ k,
           length (filter (λ r, Path r = [k]) records)
           = if differs (deploymentDoc 1 "test:1.0")
                  (mergeMap exactFit (deploymentDoc 1 "test:1.0")
                     (deploymentDoc 3 "test:2.0")) k
             then 1%nat else 0%nat)
      ∧ (∀ r, r ∈ records →
           ∃ k,
             Path r = [k]
             ∧ differs (deploymentDoc 1 "test:1.0")
                 (mergeMap exactFit (deploymentDoc 1 "test:1.0")
                    (deploymentDoc 3 "test:2.0")) k = true
             ∧ Resource r = "Deployment/test"%string
             ∧ Source r = "patch1.yaml"%string
             ∧ Original r
               = default VNil
                   (deepCopyValue <$> deploymentDoc 1 "test:1.0" !! k)
             ∧ DeepEqual (Original r)
                 (default VNil (deploymentDoc 1 "test:1.0" !! k)) = true
             ∧ New r
               = default VNil
                   (mergeMap exactFit (deploymentDoc 1 "test:1.0")
                      (deploymentDoc 3 "test:2.0") !! k)).
Proof.
  split; [exact listedOrder_entries|].
  exact (merge_records_top_level exactFit listedOrder listedOrder_entries
           "Deployment/test" "patch1.yaml" (deploymentDoc 3 "test:2.0")
           (deploymentDoc 1 "test:1.0") []).
Defined.

(** The scenario of the specification: replicas and one leaf under template
    differ, and the merge yields one record, for "spec", with the two whole
    sub-trees. *)
Example merge_records_spec_only :
  applyPatchContent exactFit listedOrder "Deployment/test" "patch1.yaml"
    (VMap (deploymentDoc 3 "test:2.0")) (deploymentDoc 1 "test:1.0") []
  = Ok (mergeMap exactFit (deploymentDoc 1 "test:1.0")
          (deploymentDoc 3 "test:2.0"),
        [{| Resource := "Deployment/test"; Path := ["spec"%string];
            Source := "patch1.yaml";
            Original := deploymentSpec 1 "test:1.0";
            New := VMap {[ "replicas"%string := VNum 3;
                           "template"%string :=
                             VMap {[ "spec"%string :=
                               VMap {[ "containers"%string :=
                                 VList [container "test:1.0";
                                        container "test:2.0"] 0 ]} ]} ]} |}]).
Proof. vm_compute. reflexivity. Qed.

Lemma sampleState_no_service :
  ∀ key, key ∈ dom (allResources sampleState) →
         matchesTarget (types.Target servicePatch) key = false.
Proof.
  intros key Hin. cbn in Hin. rewrite dom_singleton_L in Hin.
  apply elem_of_singleton in Hin. rewrite Hin. reflexivity.
Defined.

Lemma unknown_target_skipped_witness :
  (∀ (A : Type) (m : gmap string A), listedOrder A m ≡ₚ map_to_list m)
  ∧ (∀ key, key ∈ dom (allResources sampleState) →
            matchesTarget (types.Target servicePatch) key = false)
  ∧ processPatch exactFit listedOrder noFile noParse alwaysRebuilds
      servicePatch sampleState
    = Ok (warn WarnNoTarget sampleState)
  ∧ processPatches exactFit listedOrder noFile noParse alwaysRebuilds
      (servicePatch :: []) sampleState
    = processPatches exactFit listedOrder noFile noParse alwaysRebuilds
        [] (warn WarnNoTarget sampleState)
  ∧ fieldSources (warn WarnNoTarget sampleState) = fieldSources sampleState
  ∧ allResources (warn WarnNoTarget sampleState) = allResources sampleState
  ∧ stdout (warn WarnNoTarget sampleState)
    = stdout sampleState ++ [WarnNoTarget].
Proof.
  split; [exact listedOrder_entries|].
  split; [exact sampleState_no_service|].
  exact (unknown_target_skipped exactFit listedOrder noFile noParse
           alwaysRebuilds listedOrder_entries servicePatch [] sampleState
           sampleState_no_service).
Defined.

Lemma unknown_op_ignored_witness :
  decodeOp testReplicas = Ok ("test"%string, "/spec/replicas"%string, VNum 1)
  ∧ applyOperation "Deployment/test" EmptyString testReplicas (deployment, [])
    = Ok (deployment, [])
  ∧ applyOperations "Deployment/test" EmptyString (testReplicas :: [replaceReplicas])
      (deployment, [])
    = applyOperations "Deployment/test" EmptyString [replaceReplicas] (deployment, [])
  ∧ ∀ spare resourceMap log,
      applyPatchContent exactFit listedOrder "Deployment/test" EmptyString
        (VList [testReplicas] spare) resourceMap log
      = Ok (resourceMap, log).
Proof.
  assert (decodeOp testReplicas
          = Ok ("test"%string, "/spec/replicas"%string, VNum 1)) as Hop
    by (vm_compute; reflexivity).
  split; [exact Hop|].
  exact (unknown_op_ignored exactFit listedOrder "Deployment/test" EmptyString
           testReplicas [replaceReplicas] (deployment, [])
           "test" "/spec/replicas" (VNum 1) Hop
           ltac:(discriminate) ltac:(discriminate) ltac:(discriminate)).
Defined.

Lemma report_groups_witness :
  (∀ (A : Type) (m : gmap string A), listedOrder A m ≡ₚ map_to_list m)
  ∧ (report listedOrder sampleLog).*1 ≡ₚ firstSeen [] sampleLog
  ∧ NoDup (report listedOrder sampleLog).*1
  ∧ ∀ key changes,
      (key, changes) ∈ report listedOrder sampleLog →
      changes = filter (λ r, Resource r = key) sampleLog ∧ changes ≠ [].
Proof.
  split; [exact listedOrder_entries|].
  exact (report_groups listedOrder listedOrder_entries sampleLog).
Defined.

(** C9, as stated, fails: under an iteration order that visits every entry
    once, the report of a log that names "Deployment/web" first puts
    "Service/web" first. *)
Lemma report_not_in_first_seen_order :
  (∀ (A : Type) (m : gmap string A), listedOrder A m ≡ₚ map_to_list m)
  ∧ firstSeen [] sampleLog = ["Deployment/web"; "Service/web"]%string
  ∧ (report listedOrder sampleLog).*1 = ["Service/web"; "Deployment/web"]%string
  ∧ (report listedOrder sampleLog).*1 ≠ firstSeen [] sampleLog.
Proof.
  split; [exact listedOrder_entries|].
  split; [vm_compute; reflexivity|].
  split; [vm_compute; reflexivity|].
  vm_compute. discriminate.
Qed.

(** ** parsePath *)

Lemma splitSlash_join s :
  splitSlash s ≠ [] ∧ joinSlash (splitSlash s) = s
  ∧ Forall (λ seg, hasSlash seg = false) (splitSlash s).
Proof.
  induction s as [|c r (Hne & Hjoin & Hall)]; cbn [splitSlash].
  { split_and!; [done|done|]. by repeat constructor. }
  destruct (Ascii.eqb c "/") eqn:Hc.
  - apply Ascii.eqb_eq in Hc as ->. split_and!; [done| |by constructor].
    cbn [joinSlash]. destruct (splitSlash r); [done|]. by rewrite Hjoin.
  - destruct (splitSlash r) as [|h t]; [done|]. split_and!; [done| |].
    + rewrite <-Hjoin. by destruct t.
    + apply Forall_cons in Hall as [Hh Ht]. constructor; [|done].
      cbn. by rewrite Hc, Hh.
Qed.

(** X1. [parsePath] always yields at least one segment, no segment holds a
    slash, and joining the segments with slashes gives back the path less
    its one leading slash: the segments lose nothing of the path. *)
Theorem parsePath_segments (path : string) :
  parsePath path ≠ []
  ∧ Forall (λ seg, hasSlash seg = false) (parsePath path)
  ∧ joinSlash (parsePath path) = trimSlash path.
Proof.
  assert (parsePath path = splitSlash (trimSlash path)) as ->.
  { destruct path as [|c r]; [done|]. cbn.
    destruct c as [[] [] [] [] [] [] [] []]; done. }
  destruct (splitSlash_join (trimSlash path)) as (? & ? & ?). done.
Qed.

(** ** setValueAtPath *)

Lemma descend_ext key f g auto m :
  (∀ child, f child = g child) →
  descend key f auto m = descend key g auto m.
Proof.
  intros Hfg. destruct m as [| | | |mm|l spare]; try done; cbn.
  - destruct (mm !! key), auto; by rewrite ?Hfg.
  - destruct (validIndex l key) as [i|]; [|done].
    destruct (l !! i); by rewrite ?Hfg.
Qed.

Lemma setValueAtPath_inner key key' rest m value :
  setValueAtPath m (key :: key' :: rest) value
  = descend key (λ child, setValueAtPath child (key' :: rest) value) true m.
Proof. destruct m as [| | | |mm|l spare]; try done. cbn. by destruct (mm !! key). Qed.

(** X2. [setValueAtPath], which nothing calls, is [applyReplace]: on every
    tree, path and value the two give the same tree. *)
Theorem setValueAtPath_is_applyReplace (m : node) (path : list string)
    (value : node) :
  setValueAtPath m path value = applyReplace m path value.
Proof.
  revert m. induction path as [|key rest IH]; intros m; [done|].
  destruct rest as [|key' rest]; [by destruct m|].
  rewrite applyReplace_inner, setValueAtPath_inner. by apply descend_ext.
Qed.

(** ** getValueAtPath along a path in two parts *)

Lemma getValueAtPath_nil path : getValueAtPath VNil path = VNil.
Proof. by destruct path. Qed.

Lemma getValueAtPath_app_found p q :
  ∀ m, getValueAtPath m (p ++ q) = getValueAtPath (getValueAtPath m p) q.
Proof.
  induction p as [|key p IH]; intros m; [done|].
  cbn [app getValueAtPath].
  destruct m as [| | | |mm|l spare];
    try by rewrite getValueAtPath_nil.
  - destruct (mm !! key); [apply IH|by rewrite getValueAtPath_nil].
  - destruct (validIndex l key); [|by rewrite getValueAtPath_nil].
    destruct (l !! n); [apply IH|by rewrite getValueAtPath_nil].
Qed.

(** X3. Reading along [p ++ q] is reading along [p], then along [q] from
    what was found, absence included. *)
Theorem getValueAtPath_app_all (m : node) (p q : list string) :
  getValueAtPath m (p ++ q) = getValueAtPath (getValueAtPath m p) q.
Proof. apply getValueAtPath_app_found. Qed.

(** ** The three operations, one segment further *)

Lemma applyAdd_descend key rest m value :
  rest ≠ [] →
  applyAdd m (key :: rest) value
  = descend key (λ child, applyAdd child rest value) true m.
Proof. destruct rest; [done|]. intros _. apply applyAdd_inner. Qed.

Lemma applyReplace_descend key rest m value :
  rest ≠ [] →
  applyReplace m (key :: rest) value
  = descend key (λ child, applyReplace child rest value) true m.
Proof. destruct rest; [done|]. intros _. apply applyReplace_inner. Qed.

Lemma applyRemove_descend key rest m :
  rest ≠ [] →
  applyRemove m (key :: rest)
  = descend key (λ child, applyRemove child rest) false m.
Proof. destruct rest; [done|]. intros _. apply applyRemove_inner. Qed.

(** ** Shapes *)

Lemma viewAfterAppend_length l spare i xs :
  (i ≤ length l)%nat → length (viewAfterAppend l spare i xs) = length l.
Proof.
  intros Hi. unfold viewAfterAppend. case_decide; [|done].
  rewrite length_take, !length_app, length_take, length_drop. lia.
Qed.

Lemma sameShape_refl m : sameShape m m.
Proof. destruct m; cbn; eauto. Qed.

Lemma sameShape_descend key f auto m : sameShape m (descend key f auto m).
Proof.
  destruct m as [| | | |mm|l spare]; try done; cbn.
  - destruct (mm !! key), auto; eauto.
  - destruct (validIndex l key) as [i|]; [|eauto].
    destruct (l !! i); [|eauto]. eexists. split; [done|].
    by rewrite length_insert.
Qed.

Lemma applyAdd_shape m path value : sameShape m (applyAdd m path value).
Proof.
  destruct path as [|key [|key' rest]]; [apply sameShape_refl| |].
  - destruct m as [| | | |mm|l spare]; try done; cbn; [eauto|].
    destruct (Atoi key) as [idx|]; [|eauto].
    repeat case_bool_decide; eauto;
      (eexists; split; [done|]; apply viewAfterAppend_length; lia).
  - rewrite applyAdd_inner. apply sameShape_descend.
Qed.

Lemma applyReplace_shape m path value :
  sameShape m (applyReplace m path value).
Proof.
  destruct path as [|key [|key' rest]]; [apply sameShape_refl| |].
  - destruct m as [| | | |mm|l spare]; try done; cbn; [eauto|].
    destruct (validIndex l key) as [i|]; [|eauto].
    eexists. split; [done|]. by rewrite length_insert.
  - rewrite applyReplace_inner. apply sameShape_descend.
Qed.

Lemma applyRemove_shape m path : sameShape m (applyRemove m path).
Proof.
  destruct path as [|key [|key' rest]]; [apply sameShape_refl| |].
  - destruct m as [| | | |mm|l spare]; try done; cbn; [eauto|].
    destruct (validIndex l key) as [i|] eqn:Hi; [|eauto].
    eexists. split; [done|]. apply viewAfterAppend_length.
    apply validIndex_lt in Hi. lia.
  - rewrite applyRemove_inner. apply sameShape_descend.
Qed.

Lemma applyOperation_map resource source op mm log after :
  applyOperation resource source op (VMap mm, log) = Ok after →
  ∃ mm', after.1 = VMap mm'.
Proof.
  unfold applyOperation.
  destruct (decodeOp op) as [|[[opType path] value]]; [done|]. cbn.
  repeat case_match; intros [= <-]; cbn; [| | |eauto].
  - apply (applyAdd_shape (VMap mm)).
  - apply (applyReplace_shape (VMap mm)).
  - apply (applyRemove_shape (VMap mm)).
Qed.

(** X4. None of add, replace and remove changes the shape of the node it
    is called on: a map stays a map, a list keeps its length and capacity,
    a leaf stays as it is.  So a list that an operation is called on never
    grows or shrinks, and the resource map is still a map after any list of
    operations that is not fatal. *)
Theorem operations_keep_shape :
  (∀ m path value,
     sameShape m (applyAdd m path value)
     ∧ sameShape m (applyReplace m path value)
     ∧ sameShape m (applyRemove m path))
  ∧ (∀ resource source ops resourceMap log after,
       applyOperations resource source ops (VMap resourceMap, log) = Ok after →
       ∃ resourceMap', after.1 = VMap resourceMap').
Proof.
  split.
  - intros m path value.
    eauto using applyAdd_shape, applyReplace_shape, applyRemove_shape.
  - intros resource source ops.
    induction ops as [|op ops IH]; intros resourceMap log after;
      cbn [applyOperations].
    { intros [= <-]. eauto. }
    destruct (applyOperation resource source op (VMap resourceMap, log))
      as [|[m' log']] eqn:Hstep; cbn [mbind outcome_bind]; [done|].
    destruct (applyOperation_map _ _ _ _ _ _ Hstep) as [mm' Hm'].
    cbn in Hm'. subst m'. apply IH.
Qed.

(** ** add and remove at a list index *)

(** X5. An add whose final segment is an index within [0, length] of a
    list keeps the length of the list: with room in the backing array the
    value is put in before that index and the last element falls off the
    end; without room the list is left as it was. *)
Theorem applyAdd_at_list_index (l : list node) (spare : nat) (key : string)
    (idx : Z) (value : node) :
  Atoi key = Some idx →
  0 ≤ idx ≤ Z.of_nat (length l) →
  applyAdd (VList l spare) [key] value
  = VList (if decide (spare = 0%nat) then l
           else take (length l)
                  (take (Z.to_nat idx) l ++ value :: drop (Z.to_nat idx) l))
      spare.
Proof.
  intros Hkey Hidx. cbn [applyAdd]. rewrite Hkey.
  rewrite bool_decide_false by lia. rewrite bool_decide_true by lia.
  f_equal. unfold viewAfterAppend. cbn [length].
  rewrite length_drop.
  assert (Z.to_nat idx ≤ length l)%nat as Hi by lia.
  destruct (decide (spare = 0%nat)) as [->|Hroom].
  - case_decide; [exfalso; lia|done].
  - case_decide; [|exfalso; lia].
    rewrite (drop_ge l (Z.to_nat idx + _)) by lia. by rewrite app_nil_r.
Qed.

Lemma applyAdd_at_list_index_witness :
  Atoi "1" = Some 1
  ∧ 0 ≤ 1 ≤ Z.of_nat (length [VNum 1; VNum 2; VNum 3])
  ∧ applyAdd (VList [VNum 1; VNum 2; VNum 3] 1) ["1"%string] (VNum 9)
    = VList (if decide (1%nat = 0%nat) then [VNum 1; VNum 2; VNum 3]
             else take (length [VNum 1; VNum 2; VNum 3])
                    (take (Z.to_nat 1) [VNum 1; VNum 2; VNum 3]
                     ++ VNum 9 :: drop (Z.to_nat 1) [VNum 1; VNum 2; VNum 3]))
        1.
Proof.
  assert (Atoi "1" = Some 1) as Hkey by (vm_compute; reflexivity).
  assert (0 ≤ 1 ≤ Z.of_nat (length [VNum 1; VNum 2; VNum 3])) as Hidx
    by (cbn; lia).
  split; [exact Hkey|]. split; [exact Hidx|].
  exact (applyAdd_at_list_index [VNum 1; VNum 2; VNum 3] 1 "1" 1 (VNum 9)
           Hkey Hidx).
Defined.

(** X6. A remove whose final segment is an in-range index of a list moves
    the later elements one place down and leaves the last element where it
    was, so the list keeps its length and shows its last element twice
    (once, unchanged, when the index was the last). *)
Theorem applyRemove_at_list_index (l : list node) (spare : nat)
    (key : string) (i : nat) :
  validIndex l key = Some i →
  applyRemove (VList l spare) [key]
  = VList (take i l ++ drop (S i) l ++ drop (length l - 1) l) spare
  ∧ length (take i l ++ drop (S i) l ++ drop (length l - 1) l) = length l.
Proof.
  intros Hi. cbn [applyRemove]. rewrite Hi.
  apply validIndex_lt in Hi.
  assert (length (take i l ++ drop (S i) l ++ drop (length l - 1) l)
          = length l) as Hlen.
  { rewrite !length_app, length_take, !length_drop. lia. }
  split; [|done]. f_equal. unfold viewAfterAppend.
  rewrite length_drop. case_decide; [|exfalso; lia].
  replace (i + (length l - S i))%nat with (length l - 1)%nat by lia.
  apply take_ge. lia.
Qed.

Lemma applyRemove_at_list_index_witness :
  validIndex [VStr "x"; VStr "y"; VStr "z"] "0" = Some 0%nat
  ∧ applyRemove (VList [VStr "x"; VStr "y"; VStr "z"] 1) ["0"%string]
    = VList (take 0 [VStr "x"; VStr "y"; VStr "z"]
             ++ drop 1 [VStr "x"; VStr "y"; VStr "z"]
             ++ drop (length [VStr "x"; VStr "y"; VStr "z"] - 1)
                  [VStr "x"; VStr "y"; VStr "z"]) 1
  ∧ length (take 0 [VStr "x"; VStr "y"; VStr "z"]
            ++ drop 1 [VStr "x"; VStr "y"; VStr "z"]
            ++ drop (length [VStr "x"; VStr "y"; VStr "z"] - 1)
                 [VStr "x"; VStr "y"; VStr "z"])
    = length [VStr "x"; VStr "y"; VStr "z"].
Proof.
  assert (validIndex [VStr "x"; VStr "y"; VStr "z"] "0" = Some 0%nat) as Hi
    by (vm_compute; reflexivity).
  split; [exact Hi|].
  exact (applyRemove_at_list_index [VStr "x"; VStr "y"; VStr "z"] 1 "0" 0 Hi).
Defined.

(** ** Where there is a node *)

Lemma present_nodeAt path :
  ∀ m, present m path = true ↔ ∃ v, nodeAt m path v.
Proof.
  induction path as [|key rest IH]; intros m; cbn [present].
  { split; [eauto using nodeAt|done]. }
  destruct m as [| | | |mm|l spare];
    try (split; [done|intros [v Hv]; inversion Hv]).
  - destruct (mm !! key) as [child|] eqn:Hkey.
    + rewrite IH. split; intros [v Hv]; [eauto using nodeAt|].
      inversion Hv; simplify_eq. eauto.
    + split; [done|]. intros [v Hv]. inversion Hv; simplify_eq.
  - destruct (validIndex l key) as [i|] eqn:Hi.
    + pose proof Hi as (idx & Hkey & Hrange & ->)%validIndex_Some.
      destruct (l !! Z.to_nat idx) as [e|] eqn:He.
      * rewrite IH. split; intros [v Hv]; [eauto using nodeAt|].
        inversion Hv; simplify_eq. eauto.
      * apply validIndex_is_Some in Hi as [e' He']. congruence.
    + split; [done|]. intros [v Hv]. inversion Hv; subst.
      assert (validIndex l key = Some (Z.to_nat idx)) as Hi'
        by (apply validIndex_Some; eauto).
      congruence.
Qed.

Lemma present_getValueAtPath m path mm :
  getValueAtPath m path = VMap mm → present m path = true.
Proof.
  intros Hget. apply present_nodeAt.
  destruct (getValueAtPath_cases path m) as [Hat|Hnil]; [eauto|congruence].
Qed.

Lemma applyRemove_nothing path :
  ∀ m, present m path = false → applyRemove m path = m.
Proof.
  induction path as [|key rest IH]; intros m Hnone; [done|].
  destruct rest as [|key' rest].
  - destruct m as [| | | |mm|l spare]; try done; cbn in *.
    + destruct (mm !! key) eqn:Hkey; [done|]. by rewrite delete_id.
    + destruct (validIndex l key) as [i|] eqn:Hi; [|done].
      destruct (validIndex_is_Some _ _ _ Hi) as [e He].
      by rewrite He in Hnone.
  - rewrite applyRemove_inner.
    destruct m as [| | | |mm|l spare]; try done; cbn [descend present] in *.
    + destruct (mm !! key) as [child|] eqn:Hkey; [|done].
      rewrite IH by done. by rewrite insert_id.
    + destruct (validIndex l key) as [i|]; [|done].
      destruct (l !! i) as [e|] eqn:He; [|done].
      rewrite IH by done. by rewrite list_insert_id.
Qed.

(** X7. A remove at a path where the document has no node (a key that is
    missing, an index out of range, a segment that is no index, a leaf on
    the way) leaves the document exactly as it was. *)
Theorem applyRemove_absent (m : node) (path : list string) :
  present m path = false → applyRemove m path = m.
Proof. apply applyRemove_nothing. Qed.

Lemma applyRemove_absent_witness :
  present deployment ["spec"; "template"; "0"]%string = false
  ∧ applyRemove deployment ["spec"; "template"; "0"]%string = deployment.
Proof.
  assert (present deployment ["spec"; "template"; "0"]%string = false)
    as Hnone by (vm_compute; reflexivity).
  split; [exact Hnone|].
  exact (applyRemove_absent deployment ["spec"; "template"; "0"]%string Hnone).
Defined.

(** ** Operations act where their path leads *)

Lemma getValueAtPath_applyAdd_prefix pre rest value :
  rest ≠ [] →
  ∀ m, present m pre = true →
    getValueAtPath (applyAdd m (pre ++ rest) value) pre
    = applyAdd (getValueAtPath m pre) rest value.
Proof.
  intros Hrest. induction pre as [|key pre IH]; intros m Hpre; [done|].
  cbn [app]. rewrite applyAdd_descend by (by destruct pre, rest).
  rewrite getValueAtPath_descend. cbn [present getValueAtPath] in *.
  destruct m as [| | | |mm|l spare]; try done.
  - destruct (mm !! key); [by apply IH|done].
  - destruct (validIndex l key) as [i|]; [|done].
    destruct (l !! i); [by apply IH|done].
Qed.

Lemma getValueAtPath_applyReplace_prefix pre rest value :
  rest ≠ [] →
  ∀ m, present m pre = true →
    getValueAtPath (applyReplace m (pre ++ rest) value) pre
    = applyReplace (getValueAtPath m pre) rest value.
Proof.
  intros Hrest. induction pre as [|key pre IH]; intros m Hpre; [done|].
  cbn [app]. rewrite applyReplace_descend by (by destruct pre, rest).
  rewrite getValueAtPath_descend. cbn [present getValueAtPath] in *.
  destruct m as [| | | |mm|l spare]; try done.
  - destruct (mm !! key); [by apply IH|done].
  - destruct (validIndex l key) as [i|]; [|done].
    destruct (l !! i); [by apply IH|done].
Qed.

Lemma getValueAtPath_applyRemove_prefix pre rest :
  rest ≠ [] →
  ∀ m, present m pre = true →
    getValueAtPath (applyRemove m (pre ++ rest)) pre
    = applyRemove (getValueAtPath m pre) rest.
Proof.
  intros Hrest. induction pre as [|key pre IH]; intros m Hpre; [done|].
  cbn [app]. rewrite applyRemove_descend by (by destruct pre, rest).
  rewrite getValueAtPath_descend. cbn [present getValueAtPath] in *.
  destruct m as [| | | |mm|l spare]; try done.
  - destruct (mm !! key); [by apply IH|done].
  - destruct (validIndex l key) as [i|]; [|done].
    destruct (l !! i); [by apply IH|done].
Qed.

(** X8. An operation whose path runs through an existing node works on
    that node: what get finds at the prefix afterwards is the operation,
    with the rest of the path, applied to what was there before. *)
Theorem operation_acts_below_prefix (m : node) (pre rest : list string)
    (value : node) :
  present m pre = true →
  rest ≠ [] →
  getValueAtPath (applyAdd m (pre ++ rest) value) pre
  = applyAdd (getValueAtPath m pre) rest value
  ∧ getValueAtPath (applyReplace m (pre ++ rest) value) pre
    = applyReplace (getValueAtPath m pre) rest value
  ∧ getValueAtPath (applyRemove m (pre ++ rest)) pre
    = applyRemove (getValueAtPath m pre) rest.
Proof.
  intros Hpre Hrest.
  split_and!; eauto using getValueAtPath_applyAdd_prefix,
    getValueAtPath_applyReplace_prefix, getValueAtPath_applyRemove_prefix.
Qed.

Lemma operation_acts_below_prefix_witness :
  present deployment ["spec"%string] = true
  ∧ ["replicas"%string] ≠ []
  ∧ getValueAtPath
      (applyAdd deployment (["spec"%string] ++ ["replicas"%string]) (VNum 3))
      ["spec"%string]
    = applyAdd (getValueAtPath deployment ["spec"%string])
        ["replicas"%string] (VNum 3)
  ∧ getValueAtPath
      (applyReplace deployment (["spec"%string] ++ ["replicas"%string])
         (VNum 3)) ["spec"%string]
    = applyReplace (getValueAtPath deployment ["spec"%string])
        ["replicas"%string] (VNum 3)
  ∧ getValueAtPath
      (applyRemove deployment (["spec"%string] ++ ["replicas"%string]))
      ["spec"%string]
    = applyRemove (getValueAtPath deployment ["spec"%string])
        ["replicas"%string].
Proof.
  assert (present deployment ["spec"%string] = true) as Hpre
    by (vm_compute; reflexivity).
  assert (["replicas"%string] ≠ []) as Hrest by discriminate.
  split; [exact Hpre|]. split; [exact Hrest|].
  exact (operation_acts_below_prefix deployment ["spec"%string]
           ["replicas"%string] (VNum 3) Hpre Hrest).
Defined.

Lemma other_key_untouched mm key key' r1 r2 value :
  key ≠ key' →
  getValueAtPath (applyAdd (VMap mm) (key :: r1) value) (key' :: r2)
  = getValueAtPath (VMap mm) (key' :: r2)
  ∧ getValueAtPath (applyReplace (VMap mm) (key :: r1) value) (key' :: r2)
    = getValueAtPath (VMap mm) (key' :: r2)
  ∧ getValueAtPath (applyRemove (VMap mm) (key :: r1)) (key' :: r2)
    = getValueAtPath (VMap mm) (key' :: r2).
Proof.
  intros Hne. destruct r1 as [|k r1].
  - cbn. by rewrite !lookup_insert_ne, lookup_delete_ne by done.
  - rewrite applyAdd_inner, applyReplace_inner, applyRemove_inner.
    cbn [descend]. destruct (mm !! key); cbn [getValueAtPath];
      by rewrite ?lookup_insert_ne by done.
Qed.

(** X9. Below a map, an operation under one key leaves everything under
    every other key as it was: get along a path that parts from the
    operation's path at a map key returns what it returned before. *)
Theorem operation_leaves_sibling_keys (m : node) (pre : list string)
    (mm : gmap string node) (key key' : string) (r1 r2 : list string)
    (value : node) :
  getValueAtPath m pre = VMap mm →
  key ≠ key' →
  getValueAtPath (applyAdd m (pre ++ key :: r1) value) (pre ++ key' :: r2)
  = getValueAtPath m (pre ++ key' :: r2)
  ∧ getValueAtPath (applyReplace m (pre ++ key :: r1) value)
      (pre ++ key' :: r2)
    = getValueAtPath m (pre ++ key' :: r2)
  ∧ getValueAtPath (applyRemove m (pre ++ key :: r1)) (pre ++ key' :: r2)
    = getValueAtPath m (pre ++ key' :: r2).
Proof.
  intros Hpre Hne. pose proof (present_getValueAtPath _ _ _ Hpre) as Hthere.
  rewrite !getValueAtPath_app_found.
  rewrite getValueAtPath_applyAdd_prefix, getValueAtPath_applyReplace_prefix,
    getValueAtPath_applyRemove_prefix by done.
  rewrite Hpre. by apply other_key_untouched.
Qed.

Lemma operation_leaves_sibling_keys_witness :
  getValueAtPath (VMap (deploymentDoc 1 "test:1.0")) ["spec"%string]
  = deploymentSpec 1 "test:1.0"
  ∧ "replicas"%string ≠ "template"%string
  ∧ getValueAtPath
      (applyAdd (VMap (deploymentDoc 1 "test:1.0"))
         (["spec"%string] ++ ["replicas"%string]) (VNum 3))
      (["spec"%string] ++ ["template"; "spec"]%string)
    = getValueAtPath (VMap (deploymentDoc 1 "test:1.0"))
        (["spec"%string] ++ ["template"; "spec"]%string)
  ∧ getValueAtPath
      (applyReplace (VMap (deploymentDoc 1 "test:1.0"))
         (["spec"%string] ++ ["replicas"%string]) (VNum 3))
      (["spec"%string] ++ ["template"; "spec"]%string)
    = getValueAtPath (VMap (deploymentDoc 1 "test:1.0"))
        (["spec"%string] ++ ["template"; "spec"]%string)
  ∧ getValueAtPath
      (applyRemove (VMap (deploymentDoc 1 "test:1.0"))
         (["spec"%string] ++ ["replicas"%string]))
      (["spec"%string] ++ ["template"; "spec"]%string)
    = getValueAtPath (VMap (deploymentDoc 1 "test:1.0"))
        (["spec"%string] ++ ["template"; "spec"]%string).
Proof.
  assert (getValueAtPath (VMap (deploymentDoc 1 "test:1.0")) ["spec"%string]
          = deploymentSpec 1 "test:1.0") as Hpre by (vm_compute; reflexivity).
  assert ("replicas"%string ≠ "template"%string) as Hne by discriminate.
  split; [exact Hpre|]. split; [exact Hne|].
  exact (operation_leaves_sibling_keys (VMap (deploymentDoc 1 "test:1.0"))
           ["spec"%string] _ "replicas" "template" [] ["spec"%string]
           (VNum 3) Hpre Hne).
Defined.

(** ** add then remove, replace then replace *)

Lemma applyRemove_applyAdd_fresh pre key value mm :
  mm !! key = None →
  ∀ m, getValueAtPath m pre = VMap mm →
    applyRemove (applyAdd m (pre ++ [key]) value) (pre ++ [key]) = m.
Proof.
  intros Hfresh. induction pre as [|k pre IH]; intros m Hpre.
  { cbn in Hpre. subst m. cbn. by rewrite delete_insert_id. }
  cbn [app].
  rewrite applyAdd_descend by (by destruct pre).
  cbn [getValueAtPath] in Hpre.
  destruct m as [| | | |m0|l spare]; try done.
  - destruct (m0 !! k) as [child|] eqn:Hk; [|done].
    cbn [descend]. rewrite Hk.
    rewrite applyRemove_descend by (by destruct pre).
    cbn [descend]. rewrite lookup_insert_eq, insert_insert_eq.
    rewrite IH by done. by rewrite insert_id.
  - destruct (validIndex l k) as [i|] eqn:Hi; [|done].
    destruct (l !! i) as [e|] eqn:He; [|done].
    cbn [descend]. rewrite Hi, He.
    rewrite applyRemove_descend by (by destruct pre).
    cbn [descend]. rewrite validIndex_insert, Hi.
    rewrite list_lookup_insert_eq by eauto using validIndex_lt.
    rewrite list_insert_insert_eq, IH by done. by rewrite list_insert_id.
Qed.

(** X10. Adding a key that a map of the document does not have, and
    removing it again, gives the document back exactly. *)
Theorem add_then_remove_fresh_key (m : node) (pre : list string)
    (mm : gmap string node) (key : string) (value : node) :
  getValueAtPath m pre = VMap mm →
  mm !! key = None →
  applyRemove (applyAdd m (pre ++ [key]) value) (pre ++ [key]) = m.
Proof. intros Hpre Hfresh. by eapply applyRemove_applyAdd_fresh. Qed.

Lemma add_then_remove_fresh_key_witness :
  getValueAtPath deployment ["spec"%string]
  = VMap {[ "replicas"%string := VNum 1 ]}
  ∧ ({[ "replicas"%string := VNum 1 ]} : gmap string node) !! "paused"%string
    = None
  ∧ applyRemove
      (applyAdd deployment (["spec"%string] ++ ["paused"%string])
         (VBool true))
      (["spec"%string] ++ ["paused"%string])
    = deployment.
Proof.
  assert (getValueAtPath deployment ["spec"%string]
          = VMap {[ "replicas"%string := VNum 1 ]}) as Hpre
    by (vm_compute; reflexivity).
  assert (({[ "replicas"%string := VNum 1 ]} : gmap string node)
            !! "paused"%string = None) as Hfresh
    by (vm_compute; reflexivity).
  split; [exact Hpre|]. split; [exact Hfresh|].
  exact (add_then_remove_fresh_key deployment ["spec"%string]
           {[ "replicas"%string := VNum 1 ]} "paused" (VBool true)
           Hpre Hfresh).
Defined.

Lemma descend_descend key f g m :
  descend key f true (descend key g true m)
  = descend key (λ child, f (g child)) true m.
Proof.
  destruct m as [| | | |mm|l spare]; try done; cbn.
  - destruct (mm !! key); cbn;
      by rewrite lookup_insert_eq, insert_insert_eq.
  - destruct (validIndex l key) as [i|] eqn:Hi; cbn; [|by rewrite Hi].
    destruct (l !! i) as [e|] eqn:He; cbn; [|by rewrite Hi, He].
    rewrite validIndex_insert, Hi.
    rewrite list_lookup_insert_eq by eauto using validIndex_lt.
    by rewrite list_insert_insert_eq.
Qed.

Lemma replace_last_write_wins_aux path :
  ∀ m first second,
    applyReplace (applyReplace m path first) path second
    = applyReplace m path second.
Proof.
  induction path as [|key rest IH]; intros m first second; [done|].
  destruct rest as [|key' rest].
  - destruct m as [| | | |mm|l spare]; try done; cbn.
    + by rewrite insert_insert_eq.
    + destruct (validIndex l key) as [i|] eqn:Hi; cbn; [|by rewrite Hi].
      by rewrite validIndex_insert, Hi, list_insert_insert_eq.
  - rewrite !applyReplace_inner, descend_descend. by apply descend_ext.
Qed.

(** X11. A replace overwrites an earlier replace at the same path: the two
    in a row give the tree of the second alone, on every tree and path; in
    particular the same replace twice is the same replace once. *)
Theorem replace_last_write_wins (m : node) (path : list string)
    (first second : node) :
  applyReplace (applyReplace m path first) path second
  = applyReplace m path second.
Proof. apply replace_last_write_wins_aux. Qed.

(** ** deepCopyValue *)

Lemma deepCopyValue_twice x :
  deepCopyValue (deepCopyValue x) = deepCopyValue x.
Proof.
  induction x as [| | | |m IH|l spare IH] using node_ind'; try done.
  - cbn [deepCopyValue]. f_equal. rewrite <-map_fmap_compose.
    apply map_fmap_ext. intros key child Hkey. by apply (IH key child).
  - cbn [deepCopyValue]. f_equal. rewrite <-list_fmap_compose.
    apply list_fmap_ext. intros i e He. cbn.
    eapply Forall_lookup_1 in IH; [|done]. done.
Qed.

(** X12. A deep copy is deeply equal to its source, in both directions,
    and copying a copy changes nothing more. *)
Theorem deepCopyValue_faithful (x : node) :
  DeepEqual (deepCopyValue x) x = true
  ∧ DeepEqual x (deepCopyValue x) = true
  ∧ deepCopyValue (deepCopyValue x) = deepCopyValue x.
Proof.
  split_and!.
  - apply DeepEqual_deepCopyValue_same.
  - apply DeepEqual_spec. by rewrite deepCopyValue_twice.
  - apply deepCopyValue_twice.
Qed.

(** ** More on the strategic merge *)
Section MergeFacts.

Variable growslice : nat → nat → nat.
Variable rangeOrder : ∀ A : Type, gmap string A → list (string * A).

Hypothesis rangeOrder_entries :
  ∀ (A : Type) (m : gmap string A), rangeOrder A m ≡ₚ map_to_list m.

#[local] Set Default Proof Using "Type".

Lemma omap_nothing {A B} (f : A → option B) (l : list A) :
  (∀ x, x ∈ l → f x = None) → omap f l = [].
Proof.
  induction l as [|x l IH]; intros Hnone; [done|]. cbn.
  rewrite (Hnone x) by left. apply IH. intros y Hy. apply Hnone. by right.
Qed.

Lemma no_removedKey resource source patch resourceMap :
  omap (removedKey resource source (mergeMap growslice resourceMap patch))
    (rangeOrder _ (deepCopyValue <$> resourceMap)) = [].
Proof using rangeOrder_entries.
  apply omap_nothing. intros [k oldVal] Hin.
  rewrite rangeOrder_entries in Hin. apply elem_of_map_to_list in Hin.
  rewrite lookup_fmap in Hin. unfold removedKey.
  destruct (resourceMap !! k) as [a|] eqn:Hk; [|done].
  assert (k ∈ dom (mergeMap growslice resourceMap patch)) as Hdom.
  { rewrite mergeMap_dom. apply elem_of_union_l, elem_of_dom. eauto. }
  apply elem_of_dom in Hdom as [b Hb]. by rewrite Hb.
Qed.

(** X13. The merge never takes a key away, so the loop of main that looks
    for removed fields after a strategic merge never appends a record: the
    records of a merge patch are those of the loop over the merged map
    alone, and each names a key that the merged map has, with the value it
    has there. *)
Theorem merge_records_no_removal (resource source : string)
    (patch resourceMap : gmap string node) (log : list FieldSource) :
  dom resourceMap ⊆ dom (mergeMap growslice resourceMap patch)
  ∧ applyPatchContent growslice rangeOrder resource source (VMap patch)
      resourceMap log
    = Ok (mergeMap growslice resourceMap patch,
          log ++ omap (changedKey resource source
                         (deepCopyValue <$> resourceMap))
                   (rangeOrder _ (mergeMap growslice resourceMap patch)))
  ∧ ∀ r,
      r ∈ omap (changedKey resource source (deepCopyValue <$> resourceMap))
            (rangeOrder _ (mergeMap growslice resourceMap patch)) →
      ∃ k, Path r = [k]
           ∧ mergeMap growslice resourceMap patch !! k = Some (New r).
Proof using rangeOrder_entries.
  split_and!.
  - rewrite mergeMap_dom. set_solver.
  - unfold applyPatchContent, mergeRecords.
    by rewrite no_removedKey, app_nil_r.
  - intros r ([k newVal] & Hin & Hr)%list_elem_of_omap.
    rewrite rangeOrder_entries in Hin. apply elem_of_map_to_list in Hin.
    exists k. unfold changedKey in Hr. case_match; [|done].
    by injection Hr as <-.
Qed.

Lemma mergeValue_fresh srcVal : mergeValue growslice None srcVal = srcVal.
Proof. by destruct srcVal. Qed.

Lemma no_changedKey_same resource source resourceMap :
  omap (changedKey resource source (deepCopyValue <$> resourceMap))
    (rangeOrder _ resourceMap) = [].
Proof using rangeOrder_entries.
  apply omap_nothing. intros [k newVal] Hin.
  rewrite rangeOrder_entries in Hin. apply elem_of_map_to_list in Hin.
  unfold changedKey. rewrite lookup_fmap, Hin. cbn.
  by rewrite DeepEqual_deepCopyValue_same.
Qed.

(** X14. The empty map is neutral for the merge on both sides, and an
    empty merge patch leaves the resource map and the log as they were: no
    key is reported as changed. *)
Theorem merge_empty (m : gmap string node) (resource source : string)
    (log : list FieldSource) :
  mergeMap growslice m ∅ = m
  ∧ mergeMap growslice ∅ m = m
  ∧ applyPatchContent growslice rangeOrder resource source (VMap ∅) m log
    = Ok (m, log).
Proof using rangeOrder_entries.
  assert (mergeMap growslice m ∅ = m) as Hright.
  { apply map_eq. intros k. by rewrite mergeMap_lookup, lookup_empty. }
  split_and!; [done| |].
  - apply map_eq. intros k. rewrite mergeMap_lookup, lookup_empty.
    destruct (m !! k); [|done]. by rewrite mergeValue_fresh.
  - unfold applyPatchContent, mergeRecords.
    by rewrite no_removedKey, Hright, no_changedKey_same, !app_nil_r.
Qed.

Lemma mergeValue_scalar dstVal srcVal :
  scalar srcVal = true → mergeValue growslice dstVal srcVal = srcVal.
Proof. by destruct srcVal. Qed.

Lemma merge_leaf path :
  ∀ dst src,
    path ≠ [] →
    mapsOnly (VMap src) path = true →
    scalar (getValueAtPath (VMap src) path) = true →
    getValueAtPath (VMap (mergeMap growslice dst src)) path
    = getValueAtPath (VMap src) path.
Proof.
  induction path as [|key rest IH]; intros dst src Hne Hmaps Hleaf; [done|].
  cbn [mapsOnly getValueAtPath] in *. rewrite mergeMap_lookup.
  destruct (src !! key) as [srcVal|] eqn:Hkey; [|done].
  destruct rest as [|key' rest].
  { cbn in *. by rewrite mergeValue_scalar. }
  destruct srcVal as [| | | |sm|]; try done.
  destruct (dst !! key) as [[| | | |dm|]|]; try done.
  rewrite mergeValue_maps. by apply IH.
Qed.

(** X15. What the patch sets wins at every depth: for a path that leads
    through maps of the patch to a leaf of the patch, get on the merged map
    returns that leaf, whatever the destination held there. *)
Theorem merge_sets_patch_leaves (dst src : gmap string node)
    (path : list string) :
  path ≠ [] →
  mapsOnly (VMap src) path = true →
  scalar (getValueAtPath (VMap src) path) = true →
  getValueAtPath (VMap (mergeMap growslice dst src)) path
  = getValueAtPath (VMap src) path.
Proof. apply merge_leaf. Qed.

Lemma listFree_map mm :
  listFree (VMap mm) = true ↔ map_Forall (λ _ child, listFree child = true) mm.
Proof. cbn [listFree]. apply (map_fold_andb (λ _ child, listFree child)). Qed.

Lemma mergeValue_map_over dstVal src :
  (∀ dst, dstVal ≠ Some (VMap dst)) →
  mergeValue growslice dstVal (VMap src) = VMap src.
Proof. intros Hdst. destruct dstVal as [[| | | |dst|]|]; try done. by destruct (Hdst dst). Qed.

Lemma mergeValue_again srcVal :
  listFree srcVal = true →
  ∀ dstVal,
    mergeValue growslice (Some (mergeValue growslice dstVal srcVal)) srcVal
    = mergeValue growslice dstVal srcVal.
Proof.
  induction srcVal as [| | | |sm IH|l spare IH] using node_ind';
    intros Hfree dstVal; try done.
  apply listFree_map in Hfree.
  assert (∀ dm, mergeMap growslice (mergeMap growslice dm sm) sm
                = mergeMap growslice dm sm) as Hmaps.
  { intros dm. apply map_eq. intros k. rewrite !mergeMap_lookup.
    destruct (sm !! k) as [sv|] eqn:Hk; [|done].
    f_equal. by apply (IH k sv Hk), (Hfree k sv Hk). }
  assert (mergeMap growslice sm sm = sm) as Hself.
  { apply map_eq. intros k. rewrite mergeMap_lookup.
    destruct (sm !! k) as [sv|] eqn:Hk; [|done]. f_equal.
    rewrite <-(mergeValue_fresh sv) at 1.
    rewrite (IH k sv Hk) by apply (Hfree k sv Hk).
    apply mergeValue_fresh. }
  assert ((∃ dm, dstVal = Some (VMap dm)) ∨ ∀ dm, dstVal ≠ Some (VMap dm))
    as [[dm ->]|Hother].
  { destruct dstVal as [[| | | |dm|]|]; eauto. }
  - by rewrite !mergeValue_maps, Hmaps.
  - rewrite (mergeValue_map_over dstVal) by done.
    by rewrite mergeValue_maps, Hself.
Qed.

(** X16. Merging the same patch a second time changes nothing when the
    patch holds no list (a list in the patch is appended once more each
    time). *)
Theorem merge_twice_without_lists (dst patch : gmap string node) :
  listFree (VMap patch) = true →
  mergeMap growslice (mergeMap growslice dst patch) patch
  = mergeMap growslice dst patch.
Proof.
  intros Hfree. apply listFree_map in Hfree.
  apply map_eq. intros k. rewrite !mergeMap_lookup.
  destruct (patch !! k) as [sv|] eqn:Hk; [|done].
  f_equal. by apply mergeValue_again, (Hfree k sv Hk).
Qed.

Lemma merge_silent path :
  ∀ dst src,
    patchSilent (VMap dst) (VMap src) path = true →
    getValueAtPath (VMap (mergeMap growslice dst src)) path
    = getValueAtPath (VMap dst) path.
Proof.
  induction path as [|key rest IH]; intros dst src Hsilent; [done|].
  cbn [patchSilent getValueAtPath] in *. rewrite mergeMap_lookup.
  destruct (src !! key) as [srcVal|]; [|done].
  destruct (dst !! key) as [dstVal|]; [|done].
  destruct rest as [|key' rest]; [done|].
  destruct dstVal as [| | | |dm|]; try done.
  destruct srcVal as [| | | |sm|]; try done.
  rewrite mergeValue_maps. by apply IH.
Qed.

(** X28. What the patch does not mention is left alone: when, going down
    a path, patch and destination are maps as far as the patch has the
    keys and then the patch has none, get along that path returns after
    the merge what it returned before. *)
Theorem merge_leaves_unmentioned (dst src : gmap string node)
    (path : list string) :
  patchSilent (VMap dst) (VMap src) path = true →
  getValueAtPath (VMap (mergeMap growslice dst src)) path
  = getValueAtPath (VMap dst) path.
Proof. apply merge_silent. Qed.

End MergeFacts.

(** ** More on the patch loop *)

Lemma applyOperation_decoded resource source op acc :
  match decodeOp op with
  | Ok _ => ∃ acc', applyOperation resource source op acc = Ok acc'
  | Fatal msg => applyOperation resource source op acc = Fatal msg
  end.
Proof.
  destruct acc as [m log]. unfold applyOperation.
  destruct (decodeOp op) as [msg|[[opType path] value]]; [done|]. cbn.
  repeat case_match; eauto.
Qed.

Lemma applyOperations_fatal resource source ops msg :
  ∀ acc,
    applyOperations resource source ops acc = Fatal msg
    ↔ ∃ pre bad post,
        ops = pre ++ bad :: post
        ∧ Forall (λ op, ∃ decoded, decodeOp op = Ok decoded) pre
        ∧ decodeOp bad = Fatal msg.
Proof.
  induction ops as [|op ops IH]; intros acc;
    cbn [applyOperations].
  { split; [done|]. by intros ([] & ? & ? & ? & _). }
  pose proof (applyOperation_decoded resource source op acc) as Hstep.
  destruct (decodeOp op) as [msg'|decoded] eqn:Hop.
  - rewrite Hstep. cbn. split.
    + intros [= ->]. exists [], op, ops. by split_and!.
    + intros ([|op' pre] & bad & post & Hops & Hpre & Hbad);
        simplify_eq/=; [congruence|].
      apply Forall_cons in Hpre as [[? ?] _]. congruence.
  - destruct Hstep as [acc' ->]. cbn. rewrite IH. split.
    + intros (pre & bad & post & -> & Hpre & Hbad).
      exists (op :: pre), bad, post. split_and!; [done| |done].
      constructor; eauto.
    + intros ([|op' pre] & bad & post & Hops & Hpre & Hbad);
        simplify_eq/=; [congruence|].
      apply Forall_cons in Hpre as [_ Hpre]. eauto 10.
Qed.

(** X17. A list of operations is fatal exactly when one of its entries is
    malformed (not a map, or without a string op or a string path) and all
    entries before it are well-formed; the message is that of the first
    malformed entry.  No add, replace or remove, whatever its path, is
    fatal. *)
Theorem applyOperations_fatal_iff (resource source : string)
    (ops : list node) (acc : node * list FieldSource) (msg : string) :
  applyOperations resource source ops acc = Fatal msg
  ↔ ∃ pre bad post,
      ops = pre ++ bad :: post
      ∧ Forall (λ op, ∃ decoded, decodeOp op = Ok decoded) pre
      ∧ decodeOp bad = Fatal msg.
Proof. apply applyOperations_fatal. Qed.

Lemma applyOperation_announced resource source op m log m' log' :
  applyOperation resource source op (m, log) = Ok (m', log') →
  ∃ new, log' = log ++ new
         ∧ announcement <$> new = announced resource source op.
Proof.
  unfold applyOperation, announced.
  destruct (decodeOp op) as [|[[opType path] value]]; [done|]. cbn.
  destruct (String.eqb opType "add"); cbn.
  { intros [= <- <-]. eauto. }
  destruct (String.eqb opType "replace"); cbn.
  { intros [= <- <-]. eauto. }
  destruct (String.eqb opType "remove"); cbn.
  { intros [= <- <-]. eauto. }
  intros [= <- <-]. exists []. by rewrite app_nil_r.
Qed.

Lemma applyOperations_announced resource source ops m' log' :
  ∀ m log,
    applyOperations resource source ops (m, log) = Ok (m', log') →
    ∃ new, log' = log ++ new
           ∧ announcement <$> new = ops ≫= announced resource source.
Proof.
  induction ops as [|op ops IH]; intros m log;
    cbn [applyOperations].
  { intros [= <- <-]. exists []. by rewrite app_nil_r. }
  destruct (applyOperation resource source op (m, log)) as [|[m1 log1]]
    eqn:Hstep; cbn [mbind outcome_bind]; [done|].
  intros Hrest.
  destruct (applyOperation_announced _ _ _ _ _ _ _ Hstep) as (new1 & -> & H1).
  destruct (IH _ _ Hrest) as (new2 & -> & H2).
  exists (new1 ++ new2). split; [by rewrite app_assoc|].
  rewrite fmap_app, H1, H2. done.
Qed.


(** X29. The same replace twice in a row: the tree after the second is the
    tree after the first, and the second record tells a change from the
    value to itself (its original value is the new value of the first),
    when the path addresses a map key or an in-range list index. *)
Theorem replace_twice_records (resource source : string) (op : node)
    (path : string) (value m : node) (log : list FieldSource) :
  decodeOp op = Ok ("replace"%string, path, value) →
  addressesMapKey m (parsePath path) || addressesListIndex m (parsePath path)
  = true →
  applyOperations resource source [op; op] (m, log)
  = Ok (applyReplace m (parsePath path) value,
        log ++ [{| Resource := resource; Path := parsePath path;
                   Source := source;
                   Original := getValueAtPath m (parsePath path);
                   New := value |};
                {| Resource := resource; Path := parsePath path;
                   Source := source; Original := value; New := value |}]).
Proof.
  intros Hop Hpath. cbn [applyOperations]. unfold applyOperation at 1.
  rewrite Hop. cbn. unfold applyOperation. rewrite Hop. cbn.
  rewrite replace_last_write_wins_aux, getValueAtPath_applyReplace by done.
  by rewrite <-app_assoc.
Qed.

Section LoopFacts.

Variable growslice : nat → nat → nat.
Variable rangeOrder : ∀ A : Type, gmap string A → list (string * A).
Variable ReadFile : string → option string.
Variable yamlUnmarshal : string → option node.
Variable rebuilds : gmap string node → bool.

Hypothesis rangeOrder_entries :
  ∀ (A : Type) (m : gmap string A), rangeOrder A m ≡ₚ map_to_list m.

#[local] Set Default Proof Using "Type".

Lemma findTarget_found resources target res :
  findTarget rangeOrder resources target = Some res →
  ∃ key, resources !! key = Some res ∧ matchesTarget target key = true.
Proof using rangeOrder_entries.
  unfold findTarget, matchesTarget.
  destruct (String.eqb (types.Name target) EmptyString) eqn:Hname.
  - intros Hfind.
    destruct (List.find _ _) as [[key res']|] eqn:Hentry; [|done].
    injection Hfind as ->. apply find_some in Hentry as [Hin Hmatch].
    apply list_elem_of_In in Hin. rewrite rangeOrder_entries in Hin.
    apply elem_of_map_to_list in Hin. eauto.
  - intros Hkey. eexists. split; [done|]. by apply bool_decide_eq_true.
Qed.

(** X19. The target of a patch is always looked up among the keys it
    selects: a resource that is found sits in the index under a key that
    matches the target, and whenever some key of the index matches, a
    resource is found. *)
Theorem findTarget_matches (resources : gmap string resource.Resource)
    (target : types.Selector) :
  (∀ res, findTarget rangeOrder resources target = Some res →
          ∃ key, resources !! key = Some res
                 ∧ matchesTarget target key = true)
  ∧ ((∃ key, key ∈ dom resources ∧ matchesTarget target key = true) →
     is_Some (findTarget rangeOrder resources target)).
Proof using rangeOrder_entries.
  split; [apply findTarget_found|].
  unfold findTarget, matchesTarget.
  destruct (String.eqb (types.Name target) EmptyString) eqn:Hname.
  - intros (key & [res Hkey]%elem_of_dom & Hmatch).
    destruct (List.find _ _) as [entry|] eqn:Hentry; [by eexists|].
    assert ((key, res) ∈ rangeOrder _ resources) as Hin.
    { rewrite rangeOrder_entries. by apply elem_of_map_to_list. }
    apply list_elem_of_In in Hin.
    pose proof (find_none _ _ Hentry _ Hin) as Hno. cbn in Hno. congruence.
  - intros (key & Hdom & ->%bool_decide_eq_true). by apply elem_of_dom.
Qed.

Lemma applyOperations_log resource source ops m log m' log' :
  applyOperations resource source ops (m, log) = Ok (m', log') →
  log `prefix_of` log'.
Proof.
  intros (new & -> & _)%applyOperations_announced. by apply prefix_app_r.
Qed.

Lemma applyPatchContent_log resource source patchContent resourceMap log
    resourceMap' log' :
  applyPatchContent growslice rangeOrder resource source patchContent
    resourceMap log = Ok (resourceMap', log') →
  log `prefix_of` log'.
Proof.
  unfold applyPatchContent.
  destruct patchContent as [| | | |patch|ops spare];
    try (by intros [= <- <-]).
  - intros [= <- <-]. by apply prefix_app_r.
  - destruct (applyOperations _ _ _ _) as [|[after log1]] eqn:Hops; [done|].
    cbn. intros [= <- <-]. by eapply applyOperations_log.
Qed.

Lemma processPatch_keeps patch st st' :
  processPatch growslice rangeOrder ReadFile yamlUnmarshal rebuilds patch st
  = Ok st' →
  allResources st' = allResources st
  ∧ fieldSources st `prefix_of` fieldSources st'
  ∧ stdout st `prefix_of` stdout st'.
Proof.
  unfold processPatch.
  destruct (findTarget _ _ _) as [targetRes|].
  2: { intros [= <-]. split_and!; [done|done|by apply prefix_app_r]. }
  destruct (if String.eqb _ _ then _ else _) as [patchData|].
  2: { intros [= <-]. split_and!; [done|done|by apply prefix_app_r]. }
  destruct (yamlUnmarshal patchData) as [patchContent|].
  2: { intros [= <-]. split_and!; [done|done|by apply prefix_app_r]. }
  destruct (applyPatchContent _ _ _ _ _ _ _) as [|[resourceMap log]]
    eqn:Happly; [done|]. cbn.
  destruct (rebuilds resourceMap); [|done]. intros [= <-]. cbn.
  split_and!; [done| |done]. by eapply applyPatchContent_log.
Qed.

(** X20. The patch loop never writes to the resource index, so every
    patch starts from the resource as it was collected and patches on one
    resource do not build on each other; the log and the output only grow
    at their end, nothing already recorded is changed or dropped. *)
Theorem processPatches_keeps (allPatches : list types.Patch)
    (st st' : state) :
  processPatches growslice rangeOrder ReadFile yamlUnmarshal rebuilds
    allPatches st = Ok st' →
  allResources st' = allResources st
  ∧ fieldSources st `prefix_of` fieldSources st'
  ∧ stdout st `prefix_of` stdout st'.
Proof.
  revert st. induction allPatches as [|patch rest IH]; intros st;
    cbn [processPatches].
  { by intros [= <-]. }
  destruct (processPatch _ _ _ _ _ patch st) as [|st1] eqn:Hstep; [done|].
  cbn. intros Hrest.
  destruct (processPatch_keeps _ _ _ Hstep) as (Hres & Hlog & Hout).
  destruct (IH _ Hrest) as (Hres' & Hlog' & Hout').
  split_and!; [congruence|by etrans|by etrans].
Qed.



(** ** More on the report *)

Lemma groups_permutation (ks : list string) :
  ∀ log : list FieldSource,
    NoDup ks →
    (∀ r, r ∈ log → Resource r ∈ ks) →
    concat ((λ k, filter (λ r, Resource r = k) log) <$> ks) ≡ₚ log.
Proof.
  induction ks as [|k ks IH]; intros log Hnodup Hall.
  { destruct log as [|r log]; [done|].
    by destruct (not_elem_of_nil (Resource r)); apply Hall; left. }
  apply NoDup_cons in Hnodup as [Hk Hnodup]. cbn [fmap list_fmap concat].
  etrans; [|apply (filter_app_complement (λ r, Resource r = k) log)].
  f_equiv.
  assert ((λ k', filter (λ r, Resource r = k') log) <$> ks
          = (λ k', filter (λ r, Resource r = k')
                     (filter (λ r, Resource r ≠ k) log)) <$> ks) as ->.
  { apply list_fmap_ext. intros _ k' Hk'%list_elem_of_lookup_2. cbn.
    symmetry. apply list_filter_filter_l. intros r ->. congruence. }
  apply IH; [done|].
  intros r [Hne Hr]%list_elem_of_filter.
  specialize (Hall r Hr). apply elem_of_cons in Hall as [?|?]; done.
Qed.

(** X22. Grouping loses and invents nothing: the groups of the report, put
    end to end, hold exactly the records of the log. *)
Theorem report_keeps_records (log : list FieldSource) :
  concat (report rangeOrder log).*2 ≡ₚ log.
Proof using rangeOrder_entries.
  assert ((report rangeOrder log).*2
          = (λ k, filter (λ r, Resource r = k) log)
              <$> (report rangeOrder log).*1) as ->.
  { rewrite <-list_fmap_compose. apply list_fmap_ext.
    intros i [key changes] Hin%list_elem_of_lookup_2. cbn.
    unfold report in Hin. rewrite rangeOrder_entries in Hin.
    apply elem_of_map_to_list in Hin. rewrite groupChanges_lookup in Hin.
    destruct (filter _ log); [done|]. by injection Hin as <-. }
  apply groups_permutation.
  - unfold report. rewrite rangeOrder_entries. apply NoDup_fst_map_to_list.
  - intros r Hr.
    assert (Resource r ∈ dom (groupChanges log)) as [changes Hc]%elem_of_dom
      by (apply groupChanges_dom; eauto).
    apply elem_of_map_to_list in Hc. rewrite <-rangeOrder_entries in Hc.
    apply list_elem_of_fmap. by exists (Resource r, changes).
Qed.

End LoopFacts.

(** ** The resolver *)


Lemma grown_refl acc : grown acc acc.
Proof. by split_and!. Qed.

Lemma grown_trans acc1 acc2 acc3 :
  grown acc1 acc2 → grown acc2 acc3 → grown acc1 acc3.
Proof.
  intros (H1 & H2 & H3) (H4 & H5 & H6).
  split_and!; [by etrans|by etrans|]. intros Hkeyed. apply H6, H3, Hkeyed.
Qed.

Lemma keyedByName_addResource allResources res :
  keyedByName allResources → keyedByName (addResource allResources res).
Proof.
  intros Hkeyed key res'. unfold addResource.
  destruct (decide (key = resourceKey (resource.GetKind res)
                            (resource.GetName res))) as [->|Hne].
  - rewrite lookup_insert_eq. by intros [= <-].
  - rewrite lookup_insert_ne by done. apply Hkeyed.
Qed.

Lemma grown_addResource patches allResources res :
  grown (patches, allResources) (patches, addResource allResources res).
Proof.
  split_and!; cbn; [done| |apply keyedByName_addResource].
  unfold addResource. rewrite dom_insert. set_solver.
Qed.

Lemma grown_built patches allResources built :
  grown (patches, allResources) (patches, foldl addResource allResources built).
Proof.
  revert allResources. induction built as [|res built IH]; intros allResources.
  { apply grown_refl. }
  cbn [foldl]. eapply grown_trans; [apply grown_addResource|apply IH].
Qed.

Lemma grown_patches acc new :
  grown acc (acc.1 ++ new, acc.2).
Proof. split_and!; cbn; [by apply prefix_app_r|done|done]. Qed.

Lemma eachEntry_grown visit entries :
  (∀ entry acc acc', visit entry acc = Some (Ok acc') → grown acc acc') →
  ∀ acc acc',
    eachEntry visit entries acc = Some (Ok acc') → grown acc acc'.
Proof.
  intros Hvisit. induction entries as [|entry rest IH]; intros acc acc';
    cbn [eachEntry].
  { intros [= <-]. apply grown_refl. }
  destruct (visit entry acc) as [[msg|acc1]|] eqn:H1; try done.
  intros Hrest. eapply grown_trans; eauto.
Qed.

Lemma foldl_addResource_last allResources pre res post :
  Forall (λ r, resourceKey (resource.GetKind r) (resource.GetName r)
               ≠ resourceKey (resource.GetKind res) (resource.GetName res))
    post →
  foldl addResource allResources (pre ++ res :: post)
    !! resourceKey (resource.GetKind res) (resource.GetName res)
  = Some res.
Proof.
  rewrite foldl_app. cbn [foldl].
  generalize (foldl addResource allResources pre). intros start.
  assert (addResource start res
            !! resourceKey (resource.GetKind res) (resource.GetName res)
          = Some res) as Hstart by apply lookup_insert_eq.
  revert Hstart. generalize (addResource start res). clear start.
  intros start Hstart Hpost. revert start Hstart.
  induction Hpost as [|r post Hr _ IH]; intros start Hstart; [done|].
  cbn [foldl]. apply IH. unfold addResource.
  by rewrite lookup_insert_ne.
Qed.

Section ResolverFacts.

Variable ReadFile : string → option string.
Variable filepathJoin : string → string → string.
Variable parseKustomization : string → option Kustomization.
Variable FromBytes : string → option resource.Resource.
Variable Run : string → option (list resource.Resource).

#[local] Set Default Proof Using "Type".

#[local] Abbreviation walk := (processKustomization ReadFile filepathJoin
                    parseKustomization FromBytes Run).
#[local] Abbreviation walkEither := (processResourceOrKustomizationWith ReadFile
                          filepathJoin FromBytes).




Lemma walkEither_grown recur path acc acc' :
  (∀ dir acc acc', recur dir acc = Some (Ok acc') → grown acc acc') →
  walkEither recur path acc = Some (Ok acc') → grown acc acc'.
Proof.
  intros Hrecur. unfold processResourceOrKustomizationWith.
  destruct (ReadFile (filepathJoin _ _)); [apply Hrecur|].
  destruct (ReadFile path) as [data|]; [|done].
  destruct (FromBytes data) as [res|]; [|done].
  intros [= <-]. destruct acc. apply grown_addResource.
Qed.

Lemma collect_own dir kust patches :
  collectPatchesJson6902 filepathJoin dir (PatchesJson6902 kust)
    (collectPatches filepathJoin dir (Patches kust) patches)
  = patches
    ++ collectPatchesJson6902 filepathJoin dir (PatchesJson6902 kust)
         (collectPatches filepathJoin dir (Patches kust) []).
Proof.
  unfold collectPatchesJson6902, collectPatches. cbn.
  by rewrite app_assoc.
Qed.

Lemma walk_grown fuel :
  ∀ dir acc acc', walk fuel dir acc = Some (Ok acc') → grown acc acc'.
Proof.
  induction fuel as [|fuel IH]; intros dir acc acc'; [done|].
  cbn [processKustomization].
  destruct (ReadFile _) as [kustData|]; [|done].
  destruct (parseKustomization kustData) as [kust|]; [|done].
  assert (∀ entries acc acc',
    eachEntry (λ entry, walkEither (walk fuel) (filepathJoin dir entry))
      entries acc = Some (Ok acc') → grown acc acc') as Heach.
  { intros entries. apply eachEntry_grown. intros entry acc0 acc1.
    apply walkEither_grown, IH. }
  destruct (eachEntry _ (Resources kust) _) as [[msg|acc1]|] eqn:H1;
    try done.
  destruct (eachEntry _ (Components kust) _) as [[msg|acc2]|] eqn:H2;
    try done.
  destruct (Run dir) as [built|]; [|done]. intros [= <-].
  apply Heach in H1, H2. rewrite collect_own in H1.
  eapply grown_trans; [apply (grown_patches acc)|].
  eapply grown_trans; [apply H1|].
  eapply grown_trans; [apply H2|]. destruct acc2. apply grown_built.
Qed.

(** X24. A walk that returns has only added to what was collected before
    it: the patches it found follow the earlier ones, every key of the
    index is still there, and if every resource sat under its own
    kind/name before, every resource does so after. *)
Theorem processKustomization_grows (fuel : nat) (dir : string)
    (acc acc' : collected) :
  walk fuel dir acc = Some (Ok acc') →
  acc.1 `prefix_of` acc'.1
  ∧ dom acc.2 ⊆ dom acc'.2
  ∧ (keyedByName acc.2 → keyedByName acc'.2).
Proof. apply walk_grown. Qed.


(** X26. The build of a directory has the last word on the index: after
    the walk of a kustomization, each resource that its own build reports
    is in the index under its kind/name, whatever the walks below had put
    there; of two built resources of one name, the later stays. *)
Theorem processKustomization_own_build_wins (fuel : nat) (dir : string)
    (acc acc' : collected) :
  walk fuel dir acc = Some (Ok acc') →
  ∃ built,
    Run dir = Some built
    ∧ ∀ pre res post,
        built = pre ++ res :: post →
        Forall (λ r, resourceKey (resource.GetKind r) (resource.GetName r)
                     ≠ resourceKey (resource.GetKind res)
                         (resource.GetName res)) post →
        acc'.2 !! resourceKey (resource.GetKind res) (resource.GetName res)
        = Some res.
Proof.
  destruct fuel as [|fuel]; [done|]. cbn [processKustomization].
  destruct (ReadFile _) as [kustData|]; [|done].
  destruct (parseKustomization kustData) as [kust|]; [|done].
  destruct (eachEntry _ (Resources kust) _) as [[msg|acc1]|]; try done.
  destruct (eachEntry _ (Components kust) _) as [[msg|acc2]|]; try done.
  destruct (Run dir) as [built|]; [|done]. intros [= <-].
  exists built. split; [done|]. intros pre res post -> Hpost. cbn.
  by apply foldl_addResource_last.
Qed.

Section Root.

Variable rangeOrder : ∀ A : Type, gmap string A → list (string * A).

Hypothesis rangeOrder_entries :
  ∀ (A : Type) (m : gmap string A), rangeOrder A m ≡ₚ map_to_list m.


End Root.

End ResolverFacts.

(** ** The further theorems at sample inputs *)

Lemma merge_records_no_removal_witness :
  (∀ (A : Type) (m : gmap string A), listedOrder A m ≡ₚ map_to_list m)
  ∧ dom (deploymentDoc 1 "test:1.0")
    ⊆ dom (mergeMap exactFit (deploymentDoc 1 "test:1.0")
             (deploymentDoc 3 "test:2.0"))
  ∧ applyPatchContent exactFit listedOrder "Deployment/test" "patch1.yaml"
      (VMap (deploymentDoc 3 "test:2.0")) (deploymentDoc 1 "test:1.0") []
    = Ok (mergeMap exactFit (deploymentDoc 1 "test:1.0")
            (deploymentDoc 3 "test:2.0"),
          [] ++ omap (changedKey "Deployment/test" "patch1.yaml"
                        (deepCopyValue <$> deploymentDoc 1 "test:1.0"))
                  (listedOrder _
                     (mergeMap exactFit (deploymentDoc 1 "test:1.0")
                        (deploymentDoc 3 "test:2.0"))))
  ∧ ∀ r,
      r ∈ omap (changedKey "Deployment/test" "patch1.yaml"
                  (deepCopyValue <$> deploymentDoc 1 "test:1.0"))
            (listedOrder _
               (mergeMap exactFit (deploymentDoc 1 "test:1.0")
                  (deploymentDoc 3 "test:2.0"))) →
      ∃ k, Path r = [k]
           ∧ mergeMap exactFit (deploymentDoc 1 "test:1.0")
               (deploymentDoc 3 "test:2.0") !! k = Some (New r).
Proof.
  split; [exact listedOrder_entries|].
  exact (merge_records_no_removal exactFit listedOrder listedOrder_entries
           "Deployment/test" "patch1.yaml" (deploymentDoc 3 "test:2.0")
           (deploymentDoc 1 "test:1.0") []).
Defined.

Lemma merge_empty_witness :
  (∀ (A : Type) (m : gmap string A), listedOrder A m ≡ₚ map_to_list m)
  ∧ mergeMap exactFit (deploymentDoc 1 "test:1.0") ∅
    = deploymentDoc 1 "test:1.0"
  ∧ mergeMap exactFit ∅ (deploymentDoc 1 "test:1.0")
    = deploymentDoc 1 "test:1.0"
  ∧ applyPatchContent exactFit listedOrder "Deployment/test" EmptyString
      (VMap ∅) (deploymentDoc 1 "test:1.0") [replicasChange]
    = Ok (deploymentDoc 1 "test:1.0", [replicasChange]).
Proof.
  split; [exact listedOrder_entries|].
  exact (merge_empty exactFit listedOrder listedOrder_entries
           (deploymentDoc 1 "test:1.0") "Deployment/test" EmptyString
           [replicasChange]).
Defined.

Lemma merge_sets_patch_leaves_witness :
  ["spec"; "replicas"]%string ≠ []
  ∧ mapsOnly (VMap (deploymentDoc 3 "test:2.0")) ["spec"; "replicas"]%string
    = true
  ∧ scalar (getValueAtPath (VMap (deploymentDoc 3 "test:2.0"))
              ["spec"; "replicas"]%string) = true
  ∧ getValueAtPath
      (VMap (mergeMap exactFit (deploymentDoc 1 "test:1.0")
               (deploymentDoc 3 "test:2.0"))) ["spec"; "replicas"]%string
    = getValueAtPath (VMap (deploymentDoc 3 "test:2.0"))
        ["spec"; "replicas"]%string.
Proof.
  assert (["spec"; "replicas"]%string ≠ []) as Hne by discriminate.
  assert (mapsOnly (VMap (deploymentDoc 3 "test:2.0"))
            ["spec"; "replicas"]%string = true) as Hmaps
    by (vm_compute; reflexivity).
  assert (scalar (getValueAtPath (VMap (deploymentDoc 3 "test:2.0"))
                    ["spec"; "replicas"]%string) = true) as Hleaf
    by (vm_compute; reflexivity).
  split; [exact Hne|]. split; [exact Hmaps|]. split; [exact Hleaf|].
  exact (merge_sets_patch_leaves exactFit (deploymentDoc 1 "test:1.0")
           (deploymentDoc 3 "test:2.0") ["spec"; "replicas"]%string
           Hne Hmaps Hleaf).
Defined.

Lemma merge_twice_without_lists_witness :
  listFree (VMap {[ "spec"%string := VMap {[ "replicas"%string := VNum 3 ]} ]})
  = true
  ∧ mergeMap exactFit
      (mergeMap exactFit (deploymentDoc 1 "test:1.0")
         {[ "spec"%string := VMap {[ "replicas"%string := VNum 3 ]} ]})
      {[ "spec"%string := VMap {[ "replicas"%string := VNum 3 ]} ]}
    = mergeMap exactFit (deploymentDoc 1 "test:1.0")
        {[ "spec"%string := VMap {[ "replicas"%string := VNum 3 ]} ]}.
Proof.
  assert (listFree (VMap {[ "spec"%string :=
                              VMap {[ "replicas"%string := VNum 3 ]} ]})
          = true) as Hfree by (vm_compute; reflexivity).
  split; [exact Hfree|].
  exact (merge_twice_without_lists exactFit (deploymentDoc 1 "test:1.0")
           {[ "spec"%string := VMap {[ "replicas"%string := VNum 3 ]} ]}
           Hfree).
Defined.


Lemma findTarget_matches_witness :
  (∀ (A : Type) (m : gmap string A), listedOrder A m ≡ₚ map_to_list m)
  ∧ (∀ res,
       findTarget listedOrder (allResources sampleState)
         {| types.Kind := "Deployment"; types.Name := EmptyString |}
       = Some res →
       ∃ key, allResources sampleState !! key = Some res
              ∧ matchesTarget
                  {| types.Kind := "Deployment"; types.Name := EmptyString |}
                  key = true)
  ∧ ((∃ key, key ∈ dom (allResources sampleState)
             ∧ matchesTarget
                 {| types.Kind := "Deployment"; types.Name := EmptyString |}
                 key = true) →
     is_Some (findTarget listedOrder (allResources sampleState)
                {| types.Kind := "Deployment"; types.Name := EmptyString |})).
Proof.
  split; [exact listedOrder_entries|].
  exact (findTarget_matches listedOrder listedOrder_entries
           (allResources sampleState)
           {| types.Kind := "Deployment"; types.Name := EmptyString |}).
Defined.

Lemma processPatches_keeps_witness :
  processPatches exactFit listedOrder noFile sampleParse alwaysRebuilds
    [servicePatch; inlineOps] sampleState = Ok sampleStateAfter
  ∧ allResources sampleStateAfter = allResources sampleState
  ∧ fieldSources sampleState `prefix_of` fieldSources sampleStateAfter
  ∧ stdout sampleState `prefix_of` stdout sampleStateAfter.
Proof.
  assert (processPatches exactFit listedOrder noFile sampleParse
            alwaysRebuilds [servicePatch; inlineOps] sampleState
          = Ok sampleStateAfter) as Hrun by (vm_compute; reflexivity).
  split; [exact Hrun|].
  exact (processPatches_keeps exactFit listedOrder noFile sampleParse
           alwaysRebuilds [servicePatch; inlineOps] sampleState
           sampleStateAfter Hrun).
Defined.



Lemma report_keeps_records_witness :
  (∀ (A : Type) (m : gmap string A), listedOrder A m ≡ₚ map_to_list m)
  ∧ concat (report listedOrder sampleLog).*2 ≡ₚ sampleLog.
Proof.
  split; [exact listedOrder_entries|].
  exact (report_keeps_records listedOrder listedOrder_entries sampleLog).
Defined.

Lemma sample_walk :
  processKustomization sampleFiles joinPath sampleManifests sampleFactory
    sampleBuild 2 "root/base" ([], ∅) = Some (Ok baseCollected).
Proof. vm_compute. reflexivity. Defined.


Lemma processKustomization_grows_witness :
  processKustomization sampleFiles joinPath sampleManifests sampleFactory
    sampleBuild 2 "root/base" ([], ∅) = Some (Ok baseCollected)
  ∧ ([] : list types.Patch) `prefix_of` baseCollected.1
  ∧ dom (∅ : gmap string resource.Resource) ⊆ dom baseCollected.2
  ∧ (keyedByName ∅ → keyedByName baseCollected.2).
Proof.
  split; [exact sample_walk|].
  exact (processKustomization_grows sampleFiles joinPath sampleManifests
           sampleFactory sampleBuild 2 "root/base" ([], ∅) baseCollected
           sample_walk).
Defined.


Lemma processKustomization_own_build_wins_witness :
  processKustomization sampleFiles joinPath sampleManifests sampleFactory
    sampleBuild 2 "root/base" ([], ∅) = Some (Ok baseCollected)
  ∧ ∃ built,
      sampleBuild "root/base" = Some built
      ∧ ∀ pre res post,
          built = pre ++ res :: post →
          Forall (λ r, resourceKey (resource.GetKind r) (resource.GetName r)
                       ≠ resourceKey (resource.GetKind res)
                           (resource.GetName res)) post →
          baseCollected.2
            !! resourceKey (resource.GetKind res) (resource.GetName res)
          = Some res.
Proof.
  split; [exact sample_walk|].
  exact (processKustomization_own_build_wins sampleFiles joinPath
           sampleManifests sampleFactory sampleBuild 2 "root/base" ([], ∅)
           baseCollected sample_walk).
Defined.



Lemma merge_leaves_unmentioned_witness :
  patchSilent (VMap (deploymentDoc 1 "test:1.0"))
    (VMap {[ "spec"%string := VMap {[ "replicas"%string := VNum 3 ]} ]})
    ["spec"; "template"; "spec"]%string = true
  ∧ getValueAtPath
      (VMap (mergeMap exactFit (deploymentDoc 1 "test:1.0")
               {[ "spec"%string := VMap {[ "replicas"%string := VNum 3 ]} ]}))
      ["spec"; "template"; "spec"]%string
    = getValueAtPath (VMap (deploymentDoc 1 "test:1.0"))
        ["spec"; "template"; "spec"]%string.
Proof.
  assert (patchSilent (VMap (deploymentDoc 1 "test:1.0"))
            (VMap {[ "spec"%string :=
                       VMap {[ "replicas"%string := VNum 3 ]} ]})
            ["spec"; "template"; "spec"]%string = true) as Hsilent
    by (vm_compute; reflexivity).
  split; [exact Hsilent|].
  exact (merge_leaves_unmentioned exactFit (deploymentDoc 1 "test:1.0")
           {[ "spec"%string := VMap {[ "replicas"%string := VNum 3 ]} ]}
           ["spec"; "template"; "spec"]%string Hsilent).
Defined.

Lemma replace_twice_records_witness :
  decodeOp replaceReplicas
  = Ok ("replace"%string, "/spec/replicas"%string, VNum 3)
  ∧ addressesMapKey deployment (parsePath "/spec/replicas")
    || addressesListIndex deployment (parsePath "/spec/replicas") = true
  ∧ applyOperations "Deployment/test" EmptyString
      [replaceReplicas; replaceReplicas] (deployment, [])
    = Ok (applyReplace deployment (parsePath "/spec/replicas") (VNum 3),
          [] ++ [{| Resource := "Deployment/test";
                    Path := parsePath "/spec/replicas";
                    Source := EmptyString;
                    Original :=
                      getValueAtPath deployment (parsePath "/spec/replicas");
                    New := VNum 3 |};
                  {| Resource := "Deployment/test";
                     Path := parsePath "/spec/replicas";
                     Source := EmptyString; Original := VNum 3;
                     New := VNum 3 |}]).
Proof.
  assert (decodeOp replaceReplicas
          = Ok ("replace"%string, "/spec/replicas"%string, VNum 3)) as Hop
    by (vm_compute; reflexivity).
  assert (addressesMapKey deployment (parsePath "/spec/replicas")
          || addressesListIndex deployment (parsePath "/spec/replicas")
          = true) as Hpath by (vm_compute; reflexivity).
  split; [exact Hop|]. split; [exact Hpath|].
  exact (replace_twice_records "Deployment/test" EmptyString replaceReplicas
           "/spec/replicas" (VNum 3) deployment [] Hop Hpath).
Defined.
